(** * discord-intl: the runtime [IntlManager] and the message-file compiler

    A shallow embedding of [intl/src/intl-manager.ts] (the locale-reactive
    formatting engine) and of the Metro watcher that compiles
    [*.messages.js] definition files, followed by the properties of the
    natural-language specification that concern them.

    Conventions of the embedding:
    - a JavaScript call that may throw returns a [Completion];
    - the manager is a record, its methods are functions of that record;
    - the subscription [Set] is the ECMAScript [[SetData]] list, so that
      iteration under mutation behaves as it does in the engine;
    - libraries the sources import but do not define ([@formatjs/intl],
      the compiled template, the native message database) are parameters
      of a section. *)

From Stdlib Require Import Ascii String ZArith Lia.
From stdpp Require Import base option list gmap strings.

Open Scope string_scope.
Open Scope list_scope.

(** ** JavaScript completions *)

(** Values a JavaScript call can throw.  [TypeError_not_a_function] is what
    the engine raises when a non-callable value is applied,
    [RangeError_incorrect_locale] what [Intl] raises on a malformed language
    tag; every other exception is identified by a tag. *)
Inductive Thrown : Type :=
| TypeError_not_a_function
| RangeError_incorrect_locale
| Exception (tag : nat).

Inductive Completion (A : Type) : Type :=
| Normal (a : A)
| Throw (e : Thrown).
Arguments Normal {A} a.
Arguments Throw {A} e.

Definition bindC {A B : Type} (c : Completion A) (k : A -> Completion B) : Completion B :=
  match c with
  | Normal a => k a
  | Throw e => Throw e
  end.

(** ** Callbacks registered on the manager *)

(** A subscriber is a function value; the [Set] compares function values by
    identity, which is all [Callback] keeps. *)
Definition Callback : Type := nat.

(** What a subscriber may do with the manager while it runs: call its public
    mutators, or throw. *)
Inductive Action : Type :=
| CallSetLocale (locale : string)
| CallOnLocaleChange (callback : Callback)
| CallDisposer (callback : Callback)
| Raise (e : Thrown).

(** ** The ECMAScript [Set] of subscribers *)

Module JSSet.

(** [[SetData]]: the entries in insertion order; a deleted entry is
    replaced by the marker [empty] (here [None]) and never reused. *)
Abbreviation t := (list (option Callback)).

Definition new : t := [].

Definition has (x : Callback) (s : t) : bool := bool_decide (Some x ∈ s).

(** [Set.prototype.add]: a value already present keeps its place. *)
Definition add (x : Callback) (s : t) : t :=
  if has x s then s else s ++ [Some x].

(** [Set.prototype.delete]: the entry becomes [empty]. *)
Definition delete (x : Callback) (s : t) : t :=
  (fun e => if decide (e = Some x) then None else e) <$> s.

(** The members, in insertion order. *)
Definition values (s : t) : list Callback := omap id s.

End JSSet.

(** An action that cannot disturb the round in progress: disposing of a
    callback that is not among the entries [later] still to be visited, or
    registering a callback that satisfies [fresh]. *)
Definition harmless (later : JSSet.t) (fresh : Callback -> Prop) (a : Action) : Prop :=
match a with
| CallDisposer callback => callback ∉ JSSet.values later
| CallOnLocaleChange callback => fresh callback
| CallSetLocale _ => False
| Raise _ => False
end.

(** How many times [callback] was called with [locale] in a record of calls. *)
Definition times_notified (callback : Callback) (locale : string)
  (calls : list (Callback * string)) : nat :=
length (filter (fun call => call = (callback, locale)) calls).

(** The calls that notify each of [callbacks] of [locale], in that order. *)
Definition notifications (locale : string) (callbacks : list Callback)
  : list (Callback * string) :=
(fun callback => (callback, locale)) <$> callbacks.

(** ** Format parts and values *)

Inductive PART_TYPE : Type := literal | object.

Section Engine.

(** Rich content and binding values the engine never inspects. *)
Context {Opaque : Type}.
(** [ToString] of such a value, as the [+] operator applies it. *)
Context (ToString : Opaque -> string).
(** [@formatjs/intl]: the formatter tables of an [IntlShape]. *)
Context {Formatters Formats : Type}.
(** [IntlMessageFormat.formats]. *)
Context (IntlMessageFormat_formats : Formats).

Inductive Value : Type :=
| VString (s : string)
| VOpaque (o : Opaque).

Record Part : Type := { type : PART_TYPE; value : Value }.

(** [ValueBindings]: placeholder names to plain values or render functions. *)
Abbreviation Bindings := (gmap string Value).

(** JavaScript [a + b] when an operand is a string or an object: both are
    converted to strings and concatenated. *)
Definition js_ToString (v : Value) : string :=
  match v with
  | VString s => s
  | VOpaque o => ToString o
  end.

Definition js_add (a b : Value) : Value := VString (js_ToString a +:+ js_ToString b).

(** ** Messages *)

(** The compiled template a message getter resolves to: the two methods the
    manager calls on it. *)
Record Template : Type := {
  tpl_formatToParts : Formatters -> Formats -> Bindings -> Completion (list Part);
  tpl_formatToPlainString : Formatters -> Formats -> option Bindings -> Completion string;
}.

Inductive Resolved : Type :=
| RString (s : string)
| RTemplate (t : Template).

(** The run-time shapes of a [message] argument, told apart by [typeof]. *)
Inductive Message : Type :=
| MString (s : string)
| MFunction (f : string -> Completion Resolved)
| MTemplate (t : Template).

(** ** The manager *)

Record IntlConfig : Type := {
  cfg_formats : option Formats;
  cfg_defaultLocale : string;
  cfg_locale : string;
}.

Record IntlShape : Type := { formatters : Formatters; formats : Formats }.

(** [createIntl] of [@formatjs/intl]; it throws on a locale that [Intl]
    rejects. *)
Context (createIntl : IntlConfig -> Completion IntlShape).

Record IntlManager : Type := {
  defaultLocale : string;
  currentLocale : string;
  intl : IntlShape;
  defaultRichTextElements : Bindings;
  _localeSubscriptions : JSSet.t;
}.

Definition DEFAULT_LOCALE : string := "en-US".

(** [constructor(defaultLocale = DEFAULT_LOCALE, defaultRichTextElements)]:
    the default applies when the argument is [undefined] ([None]).  When
    [createIntl] throws, the constructor throws and there is no manager. *)
Definition constructor (defaultLocale_arg : option string) (elements : Bindings)
  : Completion IntlManager :=
  let defaultLocale := default DEFAULT_LOCALE defaultLocale_arg in
  bindC (createIntl {| cfg_formats := Some IntlMessageFormat_formats;
                       cfg_defaultLocale := defaultLocale;
                       cfg_locale := defaultLocale |})
    (fun intl =>
       Normal {| defaultLocale := defaultLocale;
                 currentLocale := defaultLocale;
                 intl := intl;
                 defaultRichTextElements := elements;
                 _localeSubscriptions := JSSet.new |}).

(** ** [formatToParts] *)

(** [values != null ? { ...this.defaultRichTextElements, ...values }
                    : this.defaultRichTextElements] *)
Definition resolvedValues (this : IntlManager) (values : option Bindings) : Bindings :=
  match values with
  | Some values => values ∪ defaultRichTextElements this
  | None => defaultRichTextElements this
  end.

(** [part.type === FormatPartType.literal] *)
Definition is_literal (part : Part) : bool :=
match type part with
| literal => true
| object => false
end.

(** [result[result.length - 1] += x].  On an empty array the index is [-1],
    which is not an array element: the entries are unchanged. *)
Definition add_assign_last (result : list Value) (x : Value) : list Value :=
  match last result with
  | Some v => <[Nat.pred (length result) := js_add v x]> result
  | None => result
  end.

(** One iteration of the loop over [parts]; the state is [result] and
    [inLiteral]. *)
Definition coalesce_step (st : list Value * bool) (part : Part) : list Value * bool :=
  let '(result, inLiteral) := st in
  (* inLiteral && (inLiteral = part.type === FormatPartType.literal) *)
  let inLiteral' := if inLiteral then is_literal part else inLiteral in
  if inLiteral && inLiteral'
  then (add_assign_last result (value part), inLiteral')
  else (result ++ [value part], is_literal part).

Definition coalesce (parts : list Part) : list Value :=
  fst (fold_left coalesce_step parts ([], false)).

Definition formatToParts (this : IntlManager) (message : Message)
    (values : option Bindings) : Completion (list Value) :=
  match message with
  | MString s => Normal [VString s]
  | _ =>
    bindC (match message with
           | MFunction f => f (currentLocale this)
           | MString s => Normal (RString s)
           | MTemplate t => Normal (RTemplate t)
           end)
      (fun resolvedMessage =>
         match resolvedMessage with
         | RString s => Normal [VString s]
         | RTemplate t =>
           bindC (tpl_formatToParts t (formatters (intl this)) (formats (intl this))
                    (resolvedValues this values))
             (fun parts => Normal (coalesce parts))
         end)
  end.

(** ** [formatToPlainString], [string], [formatToMarkdownString] *)

(** [message(this.currentLocale)]: applying anything but a function throws. *)
Definition call_message (message : Message) (locale : string) : Completion Resolved :=
  match message with
  | MFunction f => f locale
  | _ => Throw TypeError_not_a_function
  end.

Definition formatToPlainString (this : IntlManager) (message : Message)
    (values : option Bindings) : Completion string :=
  match message with
  | MString s => Normal s
  | _ =>
    bindC (call_message message (currentLocale this))
      (fun resolvedMessage =>
         match resolvedMessage with
         | RString s => Normal s
         | RTemplate t =>
           tpl_formatToPlainString t (formatters (intl this)) (formats (intl this)) values
         end)
  end.

(** [string(message)]; named [string_] because [string] is the type. *)
Definition string_ (this : IntlManager) (message : Message) : Completion string :=
  formatToPlainString this message None.

Definition formatToMarkdownString (this : IntlManager) (message : Message)
    (values : option Bindings) : Completion string :=
  match message with
  | MString s => Normal s
  | _ =>
    bindC (call_message message (currentLocale this))
      (fun resolvedMessage =>
         match resolvedMessage with
         | RString s => Normal s
         | RTemplate t =>
           tpl_formatToPlainString t (formatters (intl this)) (formats (intl this)) values
         end)
  end.

(** ** Locale changes and subscribers *)

(** What each registered function does when it is called with a locale. *)
Context (body : Callback -> string -> list Action).

(** The manager together with the record of subscriber invocations, oldest
    first; the record is how "was called with" is observed. *)
Record World : Type := {
  manager : IntlManager;
  notified : list (Callback * string);
}.

Definition on_manager (f : IntlManager -> IntlManager) (w : World) : World :=
  {| manager := f (manager w); notified := notified w |}.

Definition record_call (callback : Callback) (locale : string) (w : World) : World :=
  {| manager := manager w; notified := notified w ++ [(callback, locale)] |}.

(** The world after some more calls were recorded. *)
Definition also_notified (calls : list (Callback * string)) (w : World) : World :=
{| manager := manager w; notified := notified w ++ calls |}.

(** [this.currentLocale = locale] *)
Definition assign_currentLocale (locale : string) (this : IntlManager) : IntlManager :=
  {| defaultLocale := defaultLocale this;
     currentLocale := locale;
     intl := intl this;
     defaultRichTextElements := defaultRichTextElements this;
     _localeSubscriptions := _localeSubscriptions this |}.

(** [this.intl = intl'] *)
Definition assign_intl (intl' : IntlShape) (this : IntlManager) : IntlManager :=
  {| defaultLocale := defaultLocale this;
     currentLocale := currentLocale this;
     intl := intl';
     defaultRichTextElements := defaultRichTextElements this;
     _localeSubscriptions := _localeSubscriptions this |}.

(** The manager with another set of subscriptions. *)
Definition with_subscriptions (subscriptions : JSSet.t) (this : IntlManager) : IntlManager :=
  {| defaultLocale := defaultLocale this;
     currentLocale := currentLocale this;
     intl := intl this;
     defaultRichTextElements := defaultRichTextElements this;
     _localeSubscriptions := subscriptions |}.

(** [onLocaleChange(callback)]; the function it returns is [disposer]. *)
Definition onLocaleChange (callback : Callback) (this : IntlManager) : IntlManager :=
  {| defaultLocale := defaultLocale this;
     currentLocale := currentLocale this;
     intl := intl this;
     defaultRichTextElements := defaultRichTextElements this;
     _localeSubscriptions := JSSet.add callback (_localeSubscriptions this) |}.

Definition disposer (callback : Callback) (this : IntlManager) : IntlManager :=
  {| defaultLocale := defaultLocale this;
     currentLocale := currentLocale this;
     intl := intl this;
     defaultRichTextElements := defaultRichTextElements this;
     _localeSubscriptions := JSSet.delete callback (_localeSubscriptions this) |}.

(** The result of running part of a notification: how it completed, or
    [None] when it was still running as the fuel ran out, and the world
    reached at that point. *)
Definition Outcome : Type := option (Completion unit) * World.

(** Running the body of a subscriber.  [setLocale] is the manager's method,
    passed in because it is defined by recursion with the notification
    loop. *)
Fixpoint run_body (setLocale : string -> World -> Outcome)
  (actions : list Action) (w : World) : Outcome :=
match actions with
| [] => (Some (Normal tt), w)
| Raise e :: _ => (Some (Throw e), w)
| CallOnLocaleChange callback :: rest =>
  run_body setLocale rest (on_manager (onLocaleChange callback) w)
| CallDisposer callback :: rest =>
  run_body setLocale rest (on_manager (disposer callback) w)
| CallSetLocale locale :: rest =>
  match setLocale locale w with
  | (Some (Normal _), w') => run_body setLocale rest w'
  | r => r
  end
end.

(** The three statements of [setLocale], given the notification it ends
    with: [currentLocale] is assigned first; when [createIntl] throws, the
    exception leaves [setLocale] there, with the old [intl] and nobody
    notified. *)
Definition setLocale_with (emitLocaleChange : string -> World -> Outcome)
  (locale : string) (w : World) : Outcome :=
let w1 := on_manager (assign_currentLocale locale) w in
match createIntl {| cfg_formats := None;
                    cfg_defaultLocale := defaultLocale (manager w1);
                    cfg_locale := locale |} with
| Throw e => (Some (Throw e), w1)
| Normal intl' => emitLocaleChange locale (on_manager (assign_intl intl') w1)
end.

(** [for (const callback of this._localeSubscriptions) callback(locale)],
    resumed at position [index] of the entry list.  The iterator re-reads
    the list at every step, skips [empty] entries and stops at its end.  A
    subscriber that calls [setLocale] runs it with the fuel that is left. *)
Fixpoint emitLocaleChange_from (fuel : nat) (locale : string) (index : nat) (w : World)
  : Outcome :=
match fuel with
| 0 => (None, w)
| S fuel =>
  match _localeSubscriptions (manager w) !! index with
  | None => (Some (Normal tt), w)
  | Some None => emitLocaleChange_from fuel locale (S index) w
  | Some (Some callback) =>
    match run_body
            (setLocale_with (fun locale' w' => emitLocaleChange_from fuel locale' 0 w'))
            (body callback locale) (record_call callback locale w) with
    | (Some (Normal _), w') => emitLocaleChange_from fuel locale (S index) w'
    | r => r
    end
  end
end.

Definition emitLocaleChange (fuel : nat) (locale : string) (w : World) : Outcome :=
emitLocaleChange_from fuel locale 0 w.

Definition setLocale (fuel : nat) (locale : string) (w : World) : Outcome :=
setLocale_with (emitLocaleChange fuel) locale w.

(** ** Literal runs of a part sequence *)

(** The head of a group is a literal part. *)
Definition from_literal (g : list Part) : bool :=
match g with
| p :: _ => is_literal p
| [] => false
end.

(** The parts cut into maximal runs of literal parts, every other part on
    its own. *)
Fixpoint runs (parts : list Part) : list (list Part) :=
match parts with
| [] => []
| p :: parts' =>
  match runs parts' with
  | g :: gs => if is_literal p && from_literal g then (p :: g) :: gs else [p] :: g :: gs
  | [] => [[p]]
  end
end.

(** The entry a group leaves in [result]: the value of its first part, with
    the values of the others added onto it from left to right. *)
Definition merged (g : list Part) : Value :=
match g with
| p :: g' => fold_left (fun acc q => js_add acc (value q)) g' (value p)
| [] => VString ""
end.

(** A group is one part, or several parts that are all literal. *)
Definition is_run (g : list Part) : bool :=
match g with
| [] => false
| [_] => true
| _ => forallb is_literal g
end.

Definition all_literal (g : list Part) : bool := forallb is_literal g.

(** Some two neighbouring groups consist of literal parts only. *)
Fixpoint adjacent_literal (gs : list (list Part)) : bool :=
match gs with
| g1 :: (g2 :: _) as rest => (all_literal g1 && all_literal g2) || adjacent_literal rest
| _ => false
end.

(** The text of a list of entries: each one converted as [+] converts it,
    in order. *)
Definition text_of (entries : list Value) : string :=
foldr (fun v rest => js_ToString v +:+ rest) "" entries.

End Engine.

(** ** JavaScript string methods used by the watcher *)

Module JSString.

(** [haystack.lastIndexOf(needle)], at or after position [i] of the original
    string; [None] is the result [-1]. *)
Fixpoint lastIndexOf_from (i : nat) (haystack needle : string) : option nat :=
match haystack with
| EmptyString => if String.prefix needle EmptyString then Some i else None
| String _ rest =>
  match lastIndexOf_from (S i) rest needle with
  | Some j => Some j
  | None => if String.prefix needle haystack then Some i else None
  end
end.

Definition lastIndexOf (haystack needle : string) : Z :=
match lastIndexOf_from 0 haystack needle with
| Some i => Z.of_nat i
| None => (-1)%Z
end.

(** An index argument clamped to [0 .. s.length]. *)
Definition clamp (s : string) (i : Z) : nat :=
Nat.min (Z.to_nat i) (String.length s).

(** [s.substring(start, end)]: both indices are clamped and swapped when
    [start > end]. *)
Definition substring (s : string) (start end_ : Z) : string :=
let a := clamp s start in
let b := clamp s end_ in
String.substring (Nat.min a b) (Nat.max a b - Nat.min a b) s.

End JSString.

(** ** [node:path], POSIX flavour *)

Module path.

Definition slash : ascii := "/"%char.

(** The pieces of a path between its separators. *)
Fixpoint split (p : string) : list string :=
match p with
| EmptyString => [EmptyString]
| String c rest =>
  if Ascii.eqb c slash then EmptyString :: split rest
  else match split rest with
       | seg :: segs => String c seg :: segs
       | [] => [String c EmptyString]
       end
end.

Fixpoint join_segments (segs : list string) : string :=
match segs with
| [] => EmptyString
| [seg] => seg
| seg :: segs' => seg +:+ "/" +:+ join_segments segs'
end.

(** The segment loop of [normalizeString]; [res] is the result so far, last
    segment first.  Empty and ["."] segments are dropped; [".."] removes the
    last kept segment, or is kept when nothing can be removed and
    [allowAboveRoot] holds. *)
Fixpoint normalize_segments (allowAboveRoot : bool) (res : list string) (segs : list string)
  : list string :=
match segs with
| [] => rev res
| seg :: segs' =>
  if String.eqb seg "" || String.eqb seg "." then normalize_segments allowAboveRoot res segs'
  else if String.eqb seg ".." then
    match res with
    | top :: res' =>
      if String.eqb top ".."
      then normalize_segments allowAboveRoot
             (if allowAboveRoot then ".." :: res else res) segs'
      else normalize_segments allowAboveRoot res' segs'
    | [] =>
      normalize_segments allowAboveRoot (if allowAboveRoot then [".."] else []) segs'
    end
  else normalize_segments allowAboveRoot (seg :: res) segs'
end.

Definition normalizeString (p : string) (allowAboveRoot : bool) : string :=
join_segments (normalize_segments allowAboveRoot [] (split p)).

Definition isAbsolute (p : string) : bool :=
match p with
| String c _ => Ascii.eqb c slash
| EmptyString => false
end.

(** The right-to-left loop of [resolve]: [paths] are the arguments from the
    last to the first, followed by the working directory. *)
Fixpoint resolve_loop (paths : list string) (resolvedPath : string) : string * bool :=
match paths with
| [] => (resolvedPath, false)
| p :: rest =>
  if String.eqb p "" then resolve_loop rest resolvedPath
  else
    let resolvedPath' := p +:+ "/" +:+ resolvedPath in
    if isAbsolute p then (resolvedPath', true) else resolve_loop rest resolvedPath'
end.

(** [path.resolve(...args)] in a process whose working directory is [cwd]. *)
Definition resolve (cwd : string) (args : list string) : string :=
let '(resolvedPath, resolvedAbsolute) := resolve_loop (rev args ++ [cwd]) "" in
let normalized := normalizeString resolvedPath (negb resolvedAbsolute) in
if resolvedAbsolute then "/" +:+ normalized
else if String.eqb normalized "" then "." else normalized.

(** The backward scan of [dirname] over [path[i]], [path[i-1]], ..., [path[1]]:
    the index of the last separator that has a non-separator after it. *)
Fixpoint dirname_scan (i : nat) (chars : list ascii) (matchedSlash : bool) : option nat :=
match chars with
| [] => None
| c :: rest =>
  if Ascii.eqb c slash
  then if matchedSlash then dirname_scan (Nat.pred i) rest matchedSlash else Some i
  else dirname_scan (Nat.pred i) rest false
end.

Definition dirname (p : string) : string :=
match p with
| EmptyString => "."
| String c rest =>
  let hasRoot := Ascii.eqb c slash in
  match dirname_scan (String.length rest) (rev (list_ascii_of_string rest)) true with
  | None => if hasRoot then "/" else "."
  | Some end_ => if hasRoot && Nat.eqb end_ 1 then "//" else String.substring 0 end_ p
  end
end.

End path.

(** ** The watcher: [processFile] and [compileIntlMessageFiles] *)

Inductive IntlCompiledMessageFormat : Type := Json | KeylessJson.

Inductive LogLine : Type :=
| Debug (message : string)
| ConsoleError (e : Thrown).

Definition definition_suffix : string := ".messages.js".
Definition compiled_suffix : string := ".compiled.messages.jsona".

(** [filePath.substring(0, filePath.lastIndexOf('.messages.js'))] *)
Definition fileBasename (filePath : string) : string :=
JSString.substring filePath 0 (JSString.lastIndexOf filePath definition_suffix).

(** The [outputPath] of [processFile]. *)
Definition outputPath (cwd filePath : string) : string :=
path.resolve cwd [path.dirname filePath; fileBasename filePath +:+ compiled_suffix].

(** A name without a separator in it. *)
Definition no_slash (seg : string) : bool :=
forallb (fun c => negb (Ascii.eqb c path.slash)) (list_ascii_of_string seg).

(** The name of a directory or of a file: not empty, not [.] or [..], and
    without a separator. *)
Definition plain_segment (seg : string) : bool :=
negb (String.eqb seg "") && negb (String.eqb seg ".") && negb (String.eqb seg "..")
&& no_slash seg.

(** The normalized absolute path that goes down the given names. *)
Definition absolute_path (segs : list string) : string :=
"/" +:+ path.join_segments segs.

Section Watcher.

(** [@discord/intl-message-database]: the native database and what it
    touches (its tables, the file system) form [Env]. *)
Context {Env : Type}.
Context (isMessageDefinitionsFile : string -> bool).
Context (processDefinitionsFile : string -> Env -> Completion unit * Env).
Context (precompile :
  string -> string -> string -> IntlCompiledMessageFormat -> Env -> Completion unit * Env).
(** [process.cwd()] *)
Context (cwd : string).

Record Host : Type := { env : Env; log : list LogLine }.

(** Statements: a completion and the host they leave behind. *)
Definition Stmt (A : Type) : Type := Host -> Completion A * Host.

Definition ret {A : Type} (a : A) : Stmt A := fun h => (Normal a, h).

Definition seq {A B : Type} (s : Stmt A) (k : A -> Stmt B) : Stmt B :=
fun h =>
  match s h with
  | (Normal a, h') => k a h'
  | (Throw e, h') => (Throw e, h')
  end.

(** [try { s } catch (e) { handler e }] *)
Definition try_catch {A : Type} (s : Stmt A) (handler : Thrown -> Stmt A) : Stmt A :=
fun h =>
  match s h with
  | (Normal a, h') => (Normal a, h')
  | (Throw e, h') => handler e h'
  end.

Definition write_log (line : LogLine) : Stmt unit :=
fun h => (Normal tt, {| env := env h; log := log h ++ [line] |}).

Definition debug (message : string) : Stmt unit := write_log (Debug message).
Definition console_error (e : Thrown) : Stmt unit := write_log (ConsoleError e).

Definition database (call : Env -> Completion unit * Env) : Stmt unit :=
fun h => let '(c, env') := call (env h) in (c, {| env := env'; log := log h |}).

Definition processFile (filePath : string) : Stmt unit :=
if negb (isMessageDefinitionsFile filePath) then ret tt
else
  seq (debug ("Processing file: " +:+ filePath)) (fun _ =>
  try_catch
    (let outputPath := outputPath cwd filePath in
     seq (database (processDefinitionsFile filePath)) (fun _ =>
     database (precompile filePath "en-US" outputPath Json)))
    (fun e =>
       seq (debug "[INTL Error] Failed to compile messages") (fun _ =>
       console_error e))).

(** [for (const x of xs) body(x)]: a throwing iteration ends the loop. *)
Fixpoint for_of {A : Type} (xs : list A) (body : A -> Stmt unit) : Stmt unit :=
match xs with
| [] => ret tt
| x :: xs' => seq (body x) (fun _ => for_of xs' body)
end.

(** [compileIntlMessageFiles(watchedFolders, { watch })].  [found] is what
    the fast-glob stream yields for the globs, [events] the [(event, path)]
    pairs chokidar later delivers to the ['all'] listener; the debug line
    that lists the globs is kept without the list. *)
Definition compileIntlMessageFiles (found : list string) (watch : bool)
  (events : list (string * string)) : Stmt unit :=
seq (debug "Scanning for initial messages files") (fun _ =>
seq (for_of found processFile) (fun _ =>
seq (debug "Initial message scan completed.") (fun _ =>
if watch then
  seq (debug "Setting up file watching for configured paths") (fun _ =>
  for_of events (fun '(event, filePath) =>
    seq (debug ("Got event " +:+ event +:+ " for " +:+ filePath)) (fun _ =>
    processFile filePath)))
else debug "Not watching files because `watch` option was false"))).

End Watcher.

(** ** A concrete installation, for the scenarios below *)

Module Scenario.

(** [@formatjs/intl] reduced to what it was configured with; like [Intl],
    it rejects a tag written with an underscore. *)
Definition createIntl (c : @IntlConfig bool) : Completion (@IntlShape string bool) :=
if existsb (Ascii.eqb "_"%char) (list_ascii_of_string (cfg_locale c))
then Throw RangeError_incorrect_locale
else Normal {| formatters := cfg_locale c; formats := default false (cfg_formats c) |}.

Definition ToString (o : nat) : string := "[object Object]".

(** The manager [new IntlManager(undefined, {})] gives. *)
Definition new_manager : @IntlManager nat string bool :=
{| defaultLocale := "en-US";
   currentLocale := "en-US";
   intl := {| formatters := "en-US"; formats := true |};
   defaultRichTextElements := ∅;
   _localeSubscriptions := JSSet.new |}.

(** That manager with two subscribers, [1] then [2]. *)
Definition two_subscribers : @World nat string bool :=
{| manager := onLocaleChange 2 (onLocaleChange 1 new_manager); notified := [] |}.

(** Subscribers that return at once. *)
Definition quiet (callback : Callback) (locale : string) : list Action := [].

(** Subscriber [1] throws; the others return at once. *)
Definition first_throws (callback : Callback) (locale : string) : list Action :=
if Nat.eqb callback 1 then [Raise (Exception 7)] else [].

(** The same manager with a third subscriber, [3]. *)
Definition three_subscribers : @World nat string bool :=
on_manager (onLocaleChange 3) two_subscribers.

(** Subscriber [2] throws; the others return at once. *)
Definition second_throws (callback : Callback) (locale : string) : list Action :=
if Nat.eqb callback 2 then [Raise (Exception 7)] else [].

(** Subscriber [1] calls the disposer of subscriber [2]. *)
Definition first_disposes_second (callback : Callback) (locale : string) : list Action :=
if Nat.eqb callback 1 then [CallDisposer 2] else [].

(** Subscriber [1] answers a change to ["fr"] by switching to ["fr-CA"], and
    subscribes [3] meanwhile. *)
Definition first_redirects (callback : Callback) (locale : string) : list Action :=
if Nat.eqb callback 1 && String.eqb locale "fr"
then [CallOnLocaleChange 3; CallSetLocale "fr-CA"] else [].

(** Subscriber [1] subscribes [3] while it is notified. *)
Definition first_subscribes_third (callback : Callback) (locale : string) : list Action :=
if Nat.eqb callback 1 then [CallOnLocaleChange 3] else [].

(** Subscriber [1] answers a change to ["fr"] by switching to ["de"]. *)
Definition first_switches_to_de (callback : Callback) (locale : string) : list Action :=
if Nat.eqb callback 1 && String.eqb locale "fr" then [CallSetLocale "de"] else [].

(** Subscriber [1] is a one-shot listener that hands over to [3]: it disposes
    of itself and registers [3]. *)
Definition first_hands_over_to_third (callback : Callback) (locale : string) : list Action :=
if Nat.eqb callback 1 then [CallDisposer 1; CallOnLocaleChange 3] else [].

(** Subscriber [2] disposes of subscriber [1] and throws. *)
Definition second_disposes_first_and_throws (callback : Callback) (locale : string)
  : list Action :=
if Nat.eqb callback 2 then [CallDisposer 1; Raise (Exception 7)] else [].

(** A database that records the artifacts it wrote and rejects one file. *)
Definition isMessageDefinitionsFile (filePath : string) : bool :=
bool_decide (JSString.lastIndexOf filePath definition_suffix
             = Z.of_nat (String.length filePath) - Z.of_nat (String.length definition_suffix))%Z.

Definition processDefinitionsFile (filePath : string) (written : list string)
  : Completion unit * list string :=
if String.eqb filePath "/app/bad.messages.js" then (Throw (Exception 1), written)
else (Normal tt, written).

Definition precompile (filePath locale outputPath : string)
  (format : IntlCompiledMessageFormat) (written : list string)
  : Completion unit * list string :=
(Normal tt, written ++ [outputPath]).

Definition empty_host : @Host (list string) := {| env := []; log := [] |}.

End Scenario.

(** * Properties *)

(** ** The coalescing loop of [formatToParts] *)

Section Coalescing.

Context {Opaque : Type} (ToString : Opaque -> string).

Implicit Types (part p q : @Part Opaque) (parts : list (@Part Opaque)).
Implicit Types (result : list (@Value Opaque)) (v : @Value Opaque).

Lemma add_assign_last_snoc result v x :
  add_assign_last ToString (result ++ [v]) x = result ++ [js_add ToString v x].
Proof.
  unfold add_assign_last. rewrite last_snoc, length_app. simpl.
  replace (Nat.pred (length result + 1)) with (length result + 0) by lia.
  by rewrite insert_app_r.
Qed.

Lemma coalesce_step_fresh result part :
  coalesce_step ToString (result, false) part = (result ++ [value part], is_literal part).
Proof. reflexivity. Qed.

Lemma coalesce_step_literal result v part :
  is_literal part = true ->
  coalesce_step ToString (result ++ [v], true) part
  = (result ++ [js_add ToString v (value part)], true).
Proof. intros H. unfold coalesce_step. rewrite H. simpl. by rewrite add_assign_last_snoc. Qed.

Lemma coalesce_step_boundary result v part :
  is_literal part = false ->
  coalesce_step ToString (result ++ [v], true) part
  = (result ++ [v; value part], false).
Proof. intros H. unfold coalesce_step. rewrite H. simpl. by rewrite <- app_assoc. Qed.

Lemma runs_cons p parts :
  runs (p :: parts)
  = match runs parts with
    | g :: gs => if is_literal p && from_literal g then (p :: g) :: gs else [p] :: g :: gs
    | [] => [[p]]
    end.
Proof. reflexivity. Qed.

Lemma runs_cons_object p parts :
  is_literal p = false -> runs (p :: parts) = [p] :: runs parts.
Proof. intros H. simpl. rewrite H. by destruct (runs parts). Qed.

Lemma merged_runs_same_value p q parts :
  is_literal p = true -> is_literal q = true -> value p = value q ->
  merged ToString <$> runs (p :: parts) = merged ToString <$> runs (q :: parts).
Proof.
  intros Hp Hq Hv. simpl. rewrite Hp, Hq.
  destruct (runs parts) as [|g gs]; simpl; [by rewrite Hv|].
  destruct (from_literal g); simpl; by rewrite Hv.
Qed.

Lemma merged_runs_absorb v p parts :
  is_literal p = true ->
  merged ToString <$> runs ({| type := literal; value := v |} :: p :: parts)
  = merged ToString <$> runs ({| type := literal; value := js_add ToString v (value p) |} :: parts).
Proof.
  intros Hp. cbn [runs]. rewrite Hp.
  destruct (runs parts) as [|g gs]; [by simpl; rewrite Hp|].
  destruct (from_literal g); simpl; by rewrite ?Hp.
Qed.

(** The loop, started in either of its two kinds of state. *)
Lemma coalesce_loop_runs parts :
  forall result,
    fst (fold_left (coalesce_step ToString) parts (result, false))
    = result ++ (merged ToString <$> runs parts)
    /\ forall v,
      fst (fold_left (coalesce_step ToString) parts (result ++ [v], true))
      = result ++ (merged ToString <$> runs ({| type := literal; value := v |} :: parts)).
Proof.
  induction parts as [|p parts IH]; intros result.
  - split; [by rewrite app_nil_r|done].
  - split.
    + cbn [fold_left]. rewrite coalesce_step_fresh.
      destruct (is_literal p) eqn:Hp.
      * rewrite (proj2 (IH result)). f_equal.
        by apply merged_runs_same_value.
      * rewrite (proj1 (IH _)), runs_cons_object by done.
        by rewrite <- app_assoc.
    + intros v. cbn [fold_left].
      destruct (is_literal p) eqn:Hp.
      * rewrite coalesce_step_literal by done.
        rewrite (proj2 (IH result)). f_equal. symmetry.
        by apply merged_runs_absorb.
      * rewrite coalesce_step_boundary by done.
        rewrite (proj1 (IH _)). rewrite <- app_assoc. f_equal.
        rewrite runs_cons, (runs_cons_object p) by done.
        simpl. by rewrite Hp.
Qed.

Lemma coalesce_runs parts : coalesce ToString parts = merged ToString <$> runs parts.
Proof. unfold coalesce. by rewrite (proj1 (coalesce_loop_runs parts [])). Qed.

Lemma concat_runs parts : concat (runs parts) = parts.
Proof.
  induction parts as [|p parts IH]; [done|]. simpl.
  destruct (runs parts) as [|g gs]; [by simpl in *; subst|].
  destruct (is_literal p && from_literal g); simpl in *; by rewrite IH.
Qed.

(** Every group is non-empty; one that starts with a literal part is all
    literal, any other is a single part. *)
Lemma runs_shape parts :
  Forall (fun g : list (@Part Opaque) =>
            g <> [] /\ (if from_literal g then all_literal g = true else length g = 1))
         (runs parts).
Proof.
  induction parts as [|p parts IH]; [constructor|]. rewrite runs_cons.
  destruct (runs parts) as [|g gs].
  - constructor; [|constructor]. split; [done|].
    unfold all_literal. simpl. by destruct (is_literal p).
  - inversion IH as [|? ? [Hg Hlit] Hgs]; subst.
    assert (Hrest : Forall (fun g : list (@Part Opaque) =>
              g <> [] /\ (if from_literal g then all_literal g = true else length g = 1))
              (g :: gs)) by (constructor; [split|]; done).
    destruct (is_literal p) eqn:Hp, (from_literal g) eqn:Hf; simpl;
      (constructor; [split; [done|]|done]);
      simpl; rewrite ?Hp; unfold all_literal in *; simpl; rewrite ?Hp, ?Hlit; done.
Qed.

Lemma runs_are_runs parts : forallb is_run (runs parts) = true.
Proof.
  apply forallb_forall. intros g Hg.
  pose proof (runs_shape parts) as Hs. rewrite Forall_forall in Hs.
  destruct (Hs g (proj2 (list_elem_of_In _ _) Hg)) as [Hne Hshape].
  destruct g as [|p [|q g]]; [done|done|].
  unfold all_literal in Hshape. simpl in *.
  destruct (is_literal p) eqn:Hp; [exact Hshape|done].
Qed.

Lemma all_literal_from_literal (g : list (@Part Opaque)) :
  g <> [] -> all_literal g = true -> from_literal g = true.
Proof.
  destruct g as [|p g]; [done|]. unfold all_literal. simpl.
  intros _ H. by apply andb_true_iff in H as [? _].
Qed.

Lemma adjacent_literal_cons (g1 g2 : list (@Part Opaque)) gs :
  adjacent_literal (g1 :: g2 :: gs)
  = (all_literal g1 && all_literal g2) || adjacent_literal (g2 :: gs).
Proof. reflexivity. Qed.

Lemma all_literal_cons p (g : list (@Part Opaque)) :
  all_literal (p :: g) = is_literal p && all_literal g.
Proof. reflexivity. Qed.

Lemma runs_no_adjacent_literal parts : adjacent_literal (runs parts) = false.
Proof.
  induction parts as [|p parts IH]; [done|].
  pose proof (runs_shape parts) as Hs. rewrite runs_cons.
  destruct (runs parts) as [|g gs]; [done|].
  inversion Hs as [|? ? [Hg Hlit] Hgs]; subst.
  destruct (is_literal p) eqn:Hp, (from_literal g) eqn:Hf; cbn [andb].
  - destruct gs as [|g2 gs]; [done|].
    rewrite adjacent_literal_cons in *. rewrite all_literal_cons, Hp. exact IH.
  - rewrite adjacent_literal_cons, IH, orb_false_r.
    destruct (all_literal g) eqn:Hall; [|by rewrite andb_false_r].
    by rewrite (all_literal_from_literal g) in Hf.
  - by rewrite adjacent_literal_cons, IH, all_literal_cons, Hp.
  - by rewrite adjacent_literal_cons, IH, all_literal_cons, Hp.
Qed.

Lemma runs_head parts : head (runs parts) ≫= head = head parts.
Proof.
  destruct parts as [|p parts]; [done|]. simpl.
  destruct (runs parts) as [|g gs]; [done|].
  by destruct (is_literal p && from_literal g).
Qed.

(** C2.  For every sequence of format parts, the entries the coalescing loop
    of [formatToParts] leaves are exactly the maximal runs of literal parts,
    each merged into one entry, and the other parts one by one: the groups
    cover the input in order, every group with more than one part consists
    of literal parts only (no merge crosses a non-literal part), no two
    neighbouring groups are both literal, and the first entry starts with the
    first part. *)
Theorem coalesce_merges_exactly_the_literal_runs parts :
  coalesce ToString parts = merged ToString <$> runs parts
  /\ concat (runs parts) = parts
  /\ forallb is_run (runs parts) = true
  /\ adjacent_literal (runs parts) = false
  /\ head (runs parts) ≫= head = head parts.
Proof.
  split; [apply coalesce_runs|].
  split; [apply concat_runs|].
  split; [apply runs_are_runs|].
  split; [apply runs_no_adjacent_literal|apply runs_head].
Qed.

End Coalescing.

(** Two literal runs around a rich element. *)
Lemma coalesce_example :
  coalesce Scenario.ToString
    [ {| type := literal; value := VString "Hello, " |};
      {| type := literal; value := VString "world" |};
      {| type := object; value := VOpaque 1 |};
      {| type := literal; value := VString "!" |} ]
  = [VString "Hello, world"; VOpaque 1; VString "!"].
Proof. reflexivity. Qed.

(** ** The three projections *)

Section Projections.

Context {Opaque : Type} (ToString : Opaque -> string).
Context {Formatters Formats : Type}.

Implicit Types (this : @IntlManager Opaque Formatters Formats).
Implicit Types (message : @Message Opaque Formatters Formats).
Implicit Types (t : @Template Opaque Formatters Formats).
Implicit Types (values : option (gmap string (@Value Opaque))).
Implicit Types (V : gmap string (@Value Opaque)).

Lemma resolvedValues_lookup this V (key : string) :
  resolvedValues this (Some V) !! key
  = match V !! key with
    | Some v => Some v
    | None => defaultRichTextElements this !! key
    end.
Proof.
  unfold resolvedValues. rewrite lookup_union.
  by destruct (V !! key), (defaultRichTextElements this !! key).
Qed.

Lemma formatToParts_template this t values :
  formatToParts ToString this (MTemplate t) values
  = bindC (tpl_formatToParts t (formatters (intl this)) (formats (intl this))
             (resolvedValues this values))
      (fun parts => Normal (coalesce ToString parts)).
Proof. reflexivity. Qed.

Lemma formatToParts_function this f values :
  formatToParts ToString this (MFunction f) values
  = bindC (f (currentLocale this))
      (fun resolvedMessage =>
         match resolvedMessage with
         | RString s => Normal [VString s]
         | RTemplate t => formatToParts ToString this (MTemplate t) values
         end).
Proof. reflexivity. Qed.

(** The two cases of override precedence: a new key is added to the
    defaults, a key of the defaults is replaced. *)
Lemma override_precedence_examples (f1 f2 f3 : @Value Opaque) this :
  defaultRichTextElements this = {["b" := f1]} ->
  resolvedValues this (Some {["i" := f2]}) = <["i" := f2]> {["b" := f1]}
  /\ resolvedValues this (Some {["b" := f3]}) = {["b" := f3]}.
Proof.
  intros HD. split; apply map_eq; intros key; rewrite resolvedValues_lookup, HD.
  - destruct (decide (key = "i")) as [->|Hi].
    + by rewrite lookup_singleton_eq, lookup_insert_eq.
    + by rewrite lookup_singleton_ne, lookup_insert_ne.
  - destruct (decide (key = "b")) as [->|Hb].
    + by rewrite lookup_singleton_eq.
    + by rewrite !lookup_singleton_ne.
Qed.

(** C3.  The bindings [formatToParts] hands to the template are the default
    rich elements overridden key by key by the caller's: a key of the caller's
    map has the caller's value, any other key has the default's (if any);
    without a caller's map they are the defaults themselves.  This holds for
    a template passed directly and for the template a message getter
    resolves to for the current locale. *)
Theorem formatToParts_effective_bindings this t V :
  formatToParts ToString this (MTemplate t) (Some V)
  = bindC (tpl_formatToParts t (formatters (intl this)) (formats (intl this))
             (resolvedValues this (Some V)))
      (fun parts => Normal (coalesce ToString parts))
  /\ (forall key : string,
        resolvedValues this (Some V) !! key
        = match V !! key with
          | Some v => Some v
          | None => defaultRichTextElements this !! key
          end)
  /\ resolvedValues this None = defaultRichTextElements this
  /\ (forall f values,
        formatToParts ToString this (MFunction f) values
        = bindC (f (currentLocale this))
            (fun resolvedMessage =>
               match resolvedMessage with
               | RString s => Normal [VString s]
               | RTemplate t' =>
                 bindC (tpl_formatToParts t' (formatters (intl this)) (formats (intl this))
                          (resolvedValues this values))
                   (fun parts => Normal (coalesce ToString parts))
               end))
  /\ (forall values,
        formatToParts ToString this (MTemplate t) values
        = bindC (tpl_formatToParts t (formatters (intl this)) (formats (intl this))
                   (resolvedValues this values))
            (fun parts => Normal (coalesce ToString parts))).
Proof.
  split; [apply formatToParts_template|].
  split; [intros key; apply resolvedValues_lookup|].
  split; [reflexivity|].
  split; [intros f values; apply formatToParts_function|].
  intros values. apply formatToParts_template.
Qed.

(** C8.  [formatToMarkdownString] returns, or throws, exactly what
    [formatToPlainString] does on the same manager, message and bindings. *)
Theorem formatToMarkdownString_is_formatToPlainString this message values :
  formatToMarkdownString this message values = formatToPlainString this message values.
Proof. destruct message; reflexivity. Qed.

(** C9.  On a message that is a string [M], [formatToParts] returns the one
    entry [M], and [formatToPlainString] and [string] return [M], whatever
    the manager and the bindings: nothing is resolved or formatted. *)
Theorem literal_message_fast_path this (M : string) values :
  formatToParts ToString this (MString M) values = Normal [VString M]
  /\ formatToPlainString this (MString M) values = Normal M
  /\ string_ this (MString M) = Normal M.
Proof. repeat split. Qed.

(** C10.  On a message that is not a string, [formatToPlainString] and
    [formatToMarkdownString] start by calling it with the current locale: a
    function is applied, a compiled template passed directly is not callable
    and the call throws; [formatToParts] formats such a template. *)
Theorem only_formatToParts_accepts_a_template this values :
  (forall f,
     formatToPlainString this (MFunction f) values
     = bindC (f (currentLocale this))
         (fun resolvedMessage =>
            match resolvedMessage with
            | RString s => Normal s
            | RTemplate t =>
              tpl_formatToPlainString t (formatters (intl this)) (formats (intl this)) values
            end)
     /\ formatToMarkdownString this (MFunction f) values
        = formatToPlainString this (MFunction f) values)
  /\ (forall t,
        formatToPlainString this (MTemplate t) values = Throw TypeError_not_a_function
        /\ formatToMarkdownString this (MTemplate t) values = Throw TypeError_not_a_function
        /\ formatToParts ToString this (MTemplate t) values
           = bindC (tpl_formatToParts t (formatters (intl this)) (formats (intl this))
                      (resolvedValues this values))
               (fun parts => Normal (coalesce ToString parts))).
Proof. split; [intros f|intros t]; repeat split. Qed.

End Projections.

(** ** The subscriber set *)

Lemma JSSet_values_app (s1 s2 : JSSet.t) :
  JSSet.values (s1 ++ s2) = JSSet.values s1 ++ JSSet.values s2.
Proof. unfold JSSet.values. apply omap_app. Qed.

Lemma JSSet_elem_of_values (x : Callback) (s : JSSet.t) :
  x ∈ JSSet.values s <-> Some x ∈ s.
Proof.
  unfold JSSet.values. rewrite list_elem_of_omap. split.
  - intros ([y|] & Hin & Heq); simpl in Heq; [by rewrite <- Heq|done].
  - intros Hin. by exists (Some x).
Qed.

(** A set never holds a value twice: the constructor's set is empty, and
    [add] and [delete] keep the members distinct. *)
Lemma JSSet_new_NoDup : NoDup (JSSet.values JSSet.new).
Proof. constructor. Qed.

Lemma JSSet_add_NoDup (x : Callback) (s : JSSet.t) :
  NoDup (JSSet.values s) -> NoDup (JSSet.values (JSSet.add x s)).
Proof.
  intros Hs. unfold JSSet.add, JSSet.has. case_bool_decide as Hin; [done|].
  rewrite JSSet_values_app. apply NoDup_app. split; [done|]. split.
  - intros y Hy Hy'. simpl in Hy'. apply list_elem_of_singleton in Hy' as ->.
    by apply JSSet_elem_of_values in Hy.
  - simpl. apply NoDup_singleton.
Qed.

Lemma JSSet_delete_NoDup (x : Callback) (s : JSSet.t) :
  NoDup (JSSet.values s) -> NoDup (JSSet.values (JSSet.delete x s)).
Proof.
  unfold JSSet.delete, JSSet.values. induction s as [|[y|] s IH]; simpl; [done| |done].
  intros Hs. apply NoDup_cons in Hs as [Hy Hs].
  case_decide as Heq; simpl; [by apply IH|].
  apply NoDup_cons. split; [|by apply IH].
  intros Hin. apply Hy. apply list_elem_of_omap in Hin as ([z|] & Hz & Hzy); [|done].
  simpl in Hzy. injection Hzy as ->.
  apply list_elem_of_fmap in Hz as (e & He & Hin).
  case_decide; [done|]. subst e. apply list_elem_of_omap. by exists (Some y).
Qed.

Lemma times_notified_fresh (x : Callback) (locale : string) (l : list Callback) :
  x ∉ l -> times_notified x locale (notifications locale l) = 0.
Proof.
  unfold times_notified, notifications. induction l as [|y l IH]; [done|].
  intros Hx. apply not_elem_of_cons in Hx as [Hne Hx]. simpl.
  rewrite filter_cons. case_decide as Heq; [congruence|]. by apply IH.
Qed.

Lemma times_notified_once (x : Callback) (locale : string) (l : list Callback) :
  NoDup l -> x ∈ l -> times_notified x locale (notifications locale l) = 1.
Proof.
  induction l as [|y l IH]; intros Hnd Hx; [by apply elem_of_nil in Hx|].
  apply NoDup_cons in Hnd as [Hy Hnd].
  unfold times_notified, notifications in *. simpl. rewrite filter_cons.
  case_decide as Heq.
  - injection Heq as ->. simpl. f_equal. by apply times_notified_fresh.
  - apply elem_of_cons in Hx as [->|Hx]; [done|]. by apply IH.
Qed.

Lemma JSSet_delete_app (x : Callback) (s1 s2 : JSSet.t) :
  JSSet.delete x (s1 ++ s2) = JSSet.delete x s1 ++ JSSet.delete x s2.
Proof. unfold JSSet.delete. apply fmap_app. Qed.

Lemma JSSet_delete_absent (x : Callback) (s : JSSet.t) :
  x ∉ JSSet.values s -> JSSet.delete x s = s.
Proof.
  unfold JSSet.delete. induction s as [|e s IH]; [done|]. intros Hx.
  rewrite fmap_cons. rewrite IH.
  - case_decide as Heq; [|done]. subst e. exfalso. apply Hx.
    apply JSSet_elem_of_values. by left.
  - intros Hin. apply Hx. apply JSSet_elem_of_values. right.
    by apply JSSet_elem_of_values.
Qed.

Lemma JSSet_length_delete (x : Callback) (s : JSSet.t) :
  length (JSSet.delete x s) = length s.
Proof. unfold JSSet.delete. apply length_fmap. Qed.

Lemma JSSet_values_delete_subset (x y : Callback) (s : JSSet.t) :
  y ∈ JSSet.values (JSSet.delete x s) -> y ∈ JSSet.values s.
Proof.
  intros Hin. apply JSSet_elem_of_values in Hin. apply JSSet_elem_of_values.
  unfold JSSet.delete in Hin. apply list_elem_of_fmap in Hin as (e & He & Hin).
  case_decide; [done|]. by subst e.
Qed.

Lemma JSSet_add_cases (x : Callback) (s : JSSet.t) :
  JSSet.add x s = s \/ JSSet.add x s = s ++ [Some x].
Proof. unfold JSSet.add. destruct (JSSet.has x s); [by left|by right]. Qed.

Lemma times_notified_app (x : Callback) (locale : string) (calls calls' : list (Callback * string)) :
  times_notified x locale (calls ++ calls')
  = times_notified x locale calls + times_notified x locale calls'.
Proof. unfold times_notified. by rewrite filter_app, length_app. Qed.

(** ** [setLocale] and the notification loop *)

Section Notification.

Context {Opaque Formatters Formats : Type}.
Context (createIntl : @IntlConfig Formats -> Completion (@IntlShape Formatters Formats)).
Context (body : Callback -> string -> list Action).

Implicit Types (w : @World Opaque Formatters Formats).
Implicit Types (this : @IntlManager Opaque Formatters Formats).
Implicit Types (locale L : string) (fuel index : nat).

Lemma also_notified_nil w : also_notified [] w = w.
Proof. destruct w. unfold also_notified. simpl. by rewrite app_nil_r. Qed.

Lemma also_notified_app calls1 calls2 w :
  also_notified calls2 (also_notified calls1 w) = also_notified (calls1 ++ calls2) w.
Proof. unfold also_notified. simpl. by rewrite app_assoc. Qed.

Lemma with_subscriptions_same w :
  on_manager (with_subscriptions (_localeSubscriptions (manager w))) w = w.
Proof. by destruct w as [[]]. Qed.

(** A subscriber that calls [setLocale] calls the method itself. *)
Lemma emitLocaleChange_from_S fuel L index w :
  emitLocaleChange_from createIntl body (S fuel) L index w
  = match _localeSubscriptions (manager w) !! index with
    | None => (Some (Normal tt), w)
    | Some None => emitLocaleChange_from createIntl body fuel L (S index) w
    | Some (Some callback) =>
      match run_body (setLocale createIntl body fuel)
              (body callback L) (record_call callback L w) with
      | (Some (Normal _), w') => emitLocaleChange_from createIntl body fuel L (S index) w'
      | r => r
      end
    end.
Proof. reflexivity. Qed.

Lemma emitLocaleChange_at_end fuel L index w :
  length (_localeSubscriptions (manager w)) <= index ->
  emitLocaleChange_from createIntl body (S fuel) L index w = (Some (Normal tt), w).
Proof.
  intros Hend. rewrite emitLocaleChange_from_S. by rewrite lookup_ge_None_2.
Qed.

(** When [createIntl] accepts the locale, [setLocale] is the two assignments
    followed by the notification. *)
Lemma setLocale_accepted fuel L w (intl' : @IntlShape Formatters Formats) :
  createIntl {| cfg_formats := None;
                cfg_defaultLocale := defaultLocale (manager w);
                cfg_locale := L |} = Normal intl' ->
  setLocale createIntl body fuel L w
  = emitLocaleChange createIntl body fuel L
      (on_manager (assign_intl intl') (on_manager (assign_currentLocale L) w)).
Proof.
  intros Hintl. unfold setLocale, setLocale_with.
  cbn [on_manager manager assign_currentLocale defaultLocale]. by rewrite Hintl.
Qed.

Lemma setLocale_rejected fuel L w (e : Thrown) :
  createIntl {| cfg_formats := None;
                cfg_defaultLocale := defaultLocale (manager w);
                cfg_locale := L |} = Throw e ->
  setLocale createIntl body fuel L w
  = (Some (Throw e), on_manager (assign_currentLocale L) w).
Proof.
  intros Hintl. unfold setLocale, setLocale_with.
  cbn [on_manager manager assign_currentLocale defaultLocale]. by rewrite Hintl.
Qed.

(** The loop walks over a stretch of subscribers that return at once,
    recording one call for each, and goes on behind it. *)
Lemma emitLocaleChange_over_quiet (mid : JSSet.t) :
  forall (pre post : JSSet.t) fuel L w,
    _localeSubscriptions (manager w) = pre ++ mid ++ post ->
    (forall callback, callback ∈ JSSet.values mid -> body callback L = []) ->
    emitLocaleChange_from createIntl body (length mid + fuel) L (length pre) w
    = emitLocaleChange_from createIntl body fuel L (length pre + length mid)
        (also_notified (notifications L (JSSet.values mid)) w).
Proof.
  induction mid as [|entry mid IH]; intros pre post fuel L w Hsubs Hquiet.
  - simpl. by rewrite Nat.add_0_r, also_notified_nil.
  - cbn [length Nat.add]. rewrite emitLocaleChange_from_S, Hsubs.
    rewrite lookup_app_r by lia. rewrite Nat.sub_diag. cbn [lookup list_lookup app].
    replace (length pre + S (length mid)) with (length (pre ++ [entry]) + length mid)
      by (rewrite length_app; simpl; lia).
    replace (S (length pre)) with (length (pre ++ [entry]))
      by (rewrite length_app; simpl; lia).
    destruct entry as [callback|].
    + rewrite Hquiet by (apply JSSet_elem_of_values; left). cbn [run_body].
      rewrite (IH (pre ++ [Some callback]) post).
      * unfold record_call, also_notified, notifications. simpl.
        by rewrite <- app_assoc.
      * simpl. rewrite Hsubs. by rewrite <- app_assoc.
      * intros cb Hcb. apply Hquiet. apply JSSet_elem_of_values. right.
        by apply JSSet_elem_of_values.
    + rewrite (IH (pre ++ [None]) post); [done|rewrite Hsubs; by rewrite <- app_assoc|].
      intros cb Hcb. apply Hquiet. apply JSSet_elem_of_values. right.
      by apply JSSet_elem_of_values.
Qed.

(** A subscriber whose actions are harmless returns, having changed nothing
    but the entries behind the loop and the entries appended at the end. *)
Lemma run_body_harmless (fresh : Callback -> Prop) (later : JSSet.t) (actions : list Action) :
  Forall (harmless later fresh) actions ->
  forall w (pre added : JSSet.t),
    _localeSubscriptions (manager w) = pre ++ later ++ added ->
    exists pre' added' : JSSet.t,
      length pre' = length pre
      /\ (forall x, x ∈ JSSet.values added' -> x ∈ JSSet.values added \/ fresh x)
      /\ forall sl more,
          run_body sl (actions ++ more) w
          = run_body sl more (on_manager (with_subscriptions (pre' ++ later ++ added')) w).
Proof.
  induction 1 as [|a actions Ha _ IH]; intros w pre added Hsubs.
  - exists pre, added. split; [done|]. split; [by left|].
    intros sl more. by rewrite <- Hsubs, with_subscriptions_same.
  - destruct a as [locale|x|y|e]; try done; cbn [harmless] in Ha.
    + destruct (JSSet_add_cases x (_localeSubscriptions (manager w))) as [Hadd|Hadd].
      * destruct (IH (on_manager (onLocaleChange x) w) pre added) as (pre' & added' & Hlen & Hin & Hrun).
        { cbn. by rewrite Hadd. }
        exists pre', added'. split; [done|]. split; [done|].
        intros sl more. cbn [app run_body]. by rewrite Hrun.
      * destruct (IH (on_manager (onLocaleChange x) w) pre (added ++ [Some x]))
          as (pre' & added' & Hlen & Hin & Hrun).
        { cbn. rewrite Hadd, Hsubs. by rewrite <- !app_assoc. }
        exists pre', added'. split; [done|]. split.
        -- intros x' Hx'. destruct (Hin x' Hx') as [Hold|Hfresh]; [|by right].
           rewrite JSSet_values_app in Hold. apply elem_of_app in Hold as [Hold|Hnew];
             [by left|]. right. apply list_elem_of_singleton in Hnew. by subst x'.
        -- intros sl more. cbn [app run_body]. by rewrite Hrun.
    + destruct (IH (on_manager (disposer y) w) (JSSet.delete y pre) (JSSet.delete y added))
        as (pre' & added' & Hlen & Hin & Hrun).
      { cbn. rewrite Hsubs, !JSSet_delete_app. by rewrite (JSSet_delete_absent y later). }
      exists pre', added'. split; [by rewrite Hlen, JSSet_length_delete|]. split.
      * intros x' Hx'. destruct (Hin x' Hx') as [Hold|Hfresh]; [|by right].
        left. by apply JSSet_values_delete_subset in Hold.
      * intros sl more. cbn [app run_body]. by rewrite Hrun.
Qed.

(** The loop walks over a stretch of subscribers whose actions are harmless
    for the entries behind them: it records one call for each and goes on
    behind the stretch, the entries still to be visited being as they were
    and followed by what was appended. *)
Lemma emitLocaleChange_over_harmless (fresh : Callback -> Prop) L (mid : JSSet.t) :
  forall (pre post added : JSSet.t) w,
    _localeSubscriptions (manager w) = pre ++ (mid ++ post) ++ added ->
    (forall (before after : JSSet.t) callback,
       mid = before ++ Some callback :: after ->
       Forall (harmless (after ++ post) fresh) (body callback L)) ->
    exists pre' added' : JSSet.t,
      length pre' = length pre + length mid
      /\ (forall x, x ∈ JSSet.values added' -> x ∈ JSSet.values added \/ fresh x)
      /\ forall fuel,
          emitLocaleChange_from createIntl body (length mid + fuel) L (length pre) w
          = emitLocaleChange_from createIntl body fuel L (length pre + length mid)
              (also_notified (notifications L (JSSet.values mid))
                 (on_manager (with_subscriptions (pre' ++ post ++ added')) w)).
Proof.
  induction mid as [|entry mid IH]; intros pre post added w Hsubs Hbodies.
  - exists pre, added. split; [simpl; lia|]. split; [by left|].
    intros fuel. cbn [app] in Hsubs. cbn [length Nat.add JSSet.values omap list_omap notifications fmap list_fmap].
    by rewrite <- Hsubs, with_subscriptions_same, also_notified_nil, Nat.add_0_r.
  - assert (Hlookup : _localeSubscriptions (manager w) !! length pre = Some entry).
    { rewrite Hsubs. cbn [app]. by apply list_lookup_middle. }
    assert (Hmid : forall (before after : JSSet.t) callback,
               mid = before ++ Some callback :: after ->
               Forall (harmless (after ++ post) fresh) (body callback L)).
    { intros before after callback ->. by apply (Hbodies (entry :: before) after). }
    destruct entry as [callback|].
    + destruct (run_body_harmless fresh (mid ++ post) (body callback L)
                  (Hbodies [] mid callback eq_refl)
                  (record_call callback L w) (pre ++ [Some callback]) added)
        as (pre1 & added1 & Hlen1 & Hin1 & Hrun).
      { cbn [record_call manager]. rewrite Hsubs. cbn [app].
        exact (app_assoc pre [Some callback] _). }
      set (w1 := on_manager (with_subscriptions (pre1 ++ (mid ++ post) ++ added1))
                   (record_call callback L w)) in *.
      destruct (IH pre1 post added1 w1) as (pre' & added' & Hlen & Hin & Hloop);
        [done|done|].
      exists pre', added'. split; [rewrite Hlen, Hlen1, length_app; simpl; lia|]. split.
      * intros x Hx. destruct (Hin x Hx) as [Hold|Hfresh]; [|by right]. by apply Hin1.
      * intros fuel. cbn [length Nat.add].
        rewrite emitLocaleChange_from_S, Hlookup.
        rewrite <- (app_nil_r (body callback L)), Hrun. cbn [run_body].
        replace (S (length pre)) with (length pre1)
          by (rewrite Hlen1, length_app; simpl; lia).
        rewrite Hloop.
        replace (length pre1 + length mid) with (length pre + S (length mid))
          by (rewrite Hlen1, length_app; simpl; lia).
        f_equal. unfold w1, also_notified, on_manager, record_call, notifications.
        cbn. f_equal. by rewrite <- app_assoc.
    + destruct (IH (pre ++ [None]) post added w) as (pre' & added' & Hlen & Hin & Hloop);
        [rewrite Hsubs; cbn [app]; exact (app_assoc pre [None] _)|done|].
      exists pre', added'. split; [rewrite Hlen, length_app; simpl; lia|]. split; [done|].
      intros fuel. cbn [length Nat.add].
      rewrite emitLocaleChange_from_S, Hlookup.
      replace (S (length pre)) with (length (pre ++ [None]))
        by (rewrite length_app; simpl; lia).
      rewrite Hloop.
      replace (length (pre ++ [None]) + length mid) with (length pre + S (length mid))
        by (rewrite length_app; simpl; lia).
      done.
Qed.

(** More fuel never changes a run that completed. *)
Lemma run_body_more_fuel (sl sl' : string -> @World Opaque Formatters Formats -> Outcome)
    (actions : list Action) :
  (forall locale w c w', sl locale w = (Some c, w') -> sl' locale w = (Some c, w')) ->
  forall w c w', run_body sl actions w = (Some c, w') -> run_body sl' actions w = (Some c, w').
Proof.
  intros Hsl. induction actions as [|a actions IH]; intros w c w' Hrun; [done|].
  destruct a as [locale|cb|cb|e]; cbn [run_body] in *; try by apply IH.
  - destruct (sl locale w) as [[[[]|e]|] w1] eqn:Hcall; [| |done].
    + rewrite (Hsl _ _ _ _ Hcall). by apply IH.
    + by rewrite (Hsl _ _ _ _ Hcall).
  - done.
Qed.

Lemma setLocale_with_more_fuel
    (emit emit' : string -> @World Opaque Formatters Formats -> Outcome) :
  (forall locale w c w', emit locale w = (Some c, w') -> emit' locale w = (Some c, w')) ->
  forall locale w c w',
    setLocale_with createIntl emit locale w = (Some c, w') ->
    setLocale_with createIntl emit' locale w = (Some c, w').
Proof.
  intros Hemit locale w c w'. unfold setLocale_with.
  destruct (createIntl _) as [intl'|e]; [apply Hemit|done].
Qed.

Lemma emitLocaleChange_more_fuel fuel :
  forall fuel' L index w c w',
    fuel <= fuel' ->
    emitLocaleChange_from createIntl body fuel L index w = (Some c, w') ->
    emitLocaleChange_from createIntl body fuel' L index w = (Some c, w').
Proof.
  induction fuel as [|fuel IH]; intros fuel' L index w c w' Hle Hrun; [done|].
  destruct fuel' as [|fuel']; [lia|].
  rewrite emitLocaleChange_from_S in *.
  destruct (_localeSubscriptions (manager w) !! index) as [[callback|]|];
    [|by apply IH; [lia|]|done].
  assert (Hsl : forall locale w2 c2 w2',
             setLocale createIntl body fuel locale w2 = (Some c2, w2') ->
             setLocale createIntl body fuel' locale w2 = (Some c2, w2')).
  { apply setLocale_with_more_fuel. intros locale w2 c2 w2' H2.
    apply IH; [lia|exact H2]. }
  destruct (run_body (setLocale createIntl body fuel) (body callback L)
              (record_call callback L w)) as [[[[]|e]|] w1] eqn:Hbody; [| |done];
    apply (run_body_more_fuel _ _ _ Hsl) in Hbody; rewrite Hbody.
  - apply IH; [lia|done].
  - done.
Qed.

Lemma setLocale_more_fuel fuel fuel' L w c w' :
  fuel <= fuel' ->
  setLocale createIntl body fuel L w = (Some c, w') ->
  setLocale createIntl body fuel' L w = (Some c, w').
Proof.
  intros Hle. apply setLocale_with_more_fuel. intros locale w2 c2 w2'.
  by apply emitLocaleChange_more_fuel.
Qed.

(** C6, as amended.  [setLocale(L)] is called with a locale that
    [createIntl] accepts, on a manager (whose set holds each callback once,
    as a [Set] does) whose subscribers, while notified, do not throw and do
    not call [setLocale], dispose of no subscriber registered after them, and
    register only callbacks that were not registered when the call was made
    and that return without calling back into the manager.  Then it returns;
    [currentLocale] is [L]; and the calls made are one call with [L] for each
    subscriber registered at the time of the call, in registration order,
    followed by calls of callbacks registered meanwhile: each subscriber
    registered at the time of the call has been called exactly once. *)
Theorem setLocale_notifies_each_subscriber_once L w (intl' : @IntlShape Formatters Formats) :
  NoDup (JSSet.values (_localeSubscriptions (manager w))) ->
  createIntl {| cfg_formats := None;
                cfg_defaultLocale := defaultLocale (manager w);
                cfg_locale := L |} = Normal intl' ->
  (forall (before after : JSSet.t) callback,
     _localeSubscriptions (manager w) = before ++ Some callback :: after ->
     Forall (harmless after
               (fun added => (added ∉ JSSet.values (_localeSubscriptions (manager w)))
                             /\ body added L = []))
       (body callback L)) ->
  exists enough w' (extra : list Callback),
    (forall fuel, enough <= fuel ->
                  setLocale createIntl body fuel L w = (Some (Normal tt), w'))
    /\ currentLocale (manager w') = L
    /\ intl (manager w') = intl'
    /\ notified w'
       = notified w
         ++ notifications L (JSSet.values (_localeSubscriptions (manager w)))
         ++ notifications L extra
    /\ (forall added, added ∈ extra ->
                      added ∉ JSSet.values (_localeSubscriptions (manager w)))
    /\ forall callback,
         callback ∈ JSSet.values (_localeSubscriptions (manager w)) ->
         times_notified callback L
           (notifications L (JSSet.values (_localeSubscriptions (manager w)))
            ++ notifications L extra) = 1.
Proof.
  intros Hnd Hintl Hbodies.
  set (subs := _localeSubscriptions (manager w)) in *.
  set (fresh := fun added => (added ∉ JSSet.values subs) /\ body added L = []) in *.
  set (w1 := on_manager (assign_intl intl') (on_manager (assign_currentLocale L) w)).
  destruct (emitLocaleChange_over_harmless fresh L subs [] [] [] w1)
    as (pre' & added' & Hlen & Hin & Hloop).
  { cbn. fold subs. by rewrite !app_nil_r. }
  { intros before after callback Hsplit. rewrite app_nil_r.
    by apply (Hbodies before after callback). }
  cbn [length Nat.add] in Hloop, Hlen.
  assert (Hfresh : forall added, added ∈ JSSet.values added' -> fresh added).
  { intros added Hadded. destruct (Hin added Hadded) as [Hnil|Hf]; [|done].
    by apply elem_of_nil in Hnil. }
  set (w2 := also_notified (notifications L (JSSet.values subs))
               (on_manager (with_subscriptions (pre' ++ [] ++ added')) w1)) in *.
  exists (length subs + (length added' + 1)),
         (also_notified (notifications L (JSSet.values added')) w2),
         (JSSet.values added').
  split; [|split; [done|split; [done|split; [|split]]]].
  - assert (Hrun : setLocale createIntl body (length subs + (length added' + 1)) L w
                   = (Some (Normal tt),
                      also_notified (notifications L (JSSet.values added')) w2)).
    { rewrite (setLocale_accepted _ _ _ _ Hintl). unfold emitLocaleChange. fold w1.
      rewrite (Hloop (length added' + 1)). fold w2. rewrite <- Hlen.
      rewrite (emitLocaleChange_over_quiet added' pre' [] 1 L w2).
      - apply emitLocaleChange_at_end. cbn. rewrite !length_app. simpl. lia.
      - cbn. by rewrite app_nil_r.
      - intros added Hadded. by apply Hfresh. }
    intros fuel Hfuel. by apply (setLocale_more_fuel _ _ _ _ _ _ Hfuel).
  - cbn. by rewrite <- !app_assoc.
  - intros added Hadded. by apply Hfresh.
  - intros callback Hmember. rewrite times_notified_app.
    rewrite times_notified_once by done.
    rewrite times_notified_fresh; [done|].
    intros Hadded. by apply (Hfresh callback Hadded).
Qed.

(** C1, as amended.  A subscriber that throws ends the notification.  Let
    [createIntl] accept the locale, let the subscribers registered before the
    one that throws return normally, and let all of them, before returning
    or throwing, call back into the manager at most to register callbacks
    and to dispose of callbacks other than the ones still to be notified.
    Then the subscribers registered before it have been called, it has been
    called, nobody is called after it, and the exception leaves [setLocale],
    [currentLocale] being already [L]. *)
Theorem setLocale_stops_at_throwing_subscriber L w (intl' : @IntlShape Formatters Formats)
    (before after : JSSet.t) (callback : Callback) (e : Thrown)
    (actions rest : list Action) :
  createIntl {| cfg_formats := None;
                cfg_defaultLocale := defaultLocale (manager w);
                cfg_locale := L |} = Normal intl' ->
  _localeSubscriptions (manager w) = before ++ Some callback :: after ->
  (forall (before0 after0 : JSSet.t) earlier,
     before = before0 ++ Some earlier :: after0 ->
     Forall (harmless (after0 ++ Some callback :: after) (fun _ => True))
       (body earlier L)) ->
  body callback L = actions ++ Raise e :: rest ->
  Forall (harmless after (fun _ => True)) actions ->
  exists w',
    (forall fuel, length before < fuel ->
                  setLocale createIntl body fuel L w = (Some (Throw e), w'))
    /\ currentLocale (manager w') = L
    /\ notified w'
       = notified w ++ notifications L (JSSet.values before) ++ [(callback, L)].
Proof.
  intros Hintl Hsubs Hearlier Hbody Hactions.
  set (w1 := on_manager (assign_intl intl') (on_manager (assign_currentLocale L) w)).
  destruct (emitLocaleChange_over_harmless (fun _ => True) L before []
              (Some callback :: after) [] w1)
    as (pre' & added' & Hlen & _ & Hloop).
  { cbn. by rewrite Hsubs, app_nil_r. }
  { done. }
  cbn [length Nat.add] in Hloop, Hlen.
  set (w2 := also_notified (notifications L (JSSet.values before))
               (on_manager (with_subscriptions (pre' ++ (Some callback :: after) ++ added'))
                  w1)) in *.
  destruct (run_body_harmless (fun _ => True) after actions Hactions
              (record_call callback L w2) (pre' ++ [Some callback]) added')
    as (pre1 & added1 & _ & _ & Hrun).
  { cbn. exact (app_assoc pre' [Some callback] _). }
  eexists. split; [|split].
  - intros fuel Hfuel. rewrite (setLocale_accepted _ _ _ _ Hintl).
    unfold emitLocaleChange. fold w1.
    replace fuel with (length before + S (fuel - S (length before))) by lia.
    rewrite Hloop. fold w2. rewrite <- Hlen.
    rewrite emitLocaleChange_from_S.
    assert (Hlookup : _localeSubscriptions (manager w2) !! length pre'
                      = Some (Some callback))
      by (cbn; by apply list_lookup_middle).
    rewrite Hlookup, Hbody, Hrun. cbn [run_body]. reflexivity.
  - done.
  - cbn. by rewrite <- !app_assoc.
Qed.

(** A property of the manager that the mutators keep holds throughout a
    notification, whatever the subscribers do, as long as the locales they
    pass to [setLocale] are among those for which the assignment keeps it. *)
Lemma run_body_invariant (ok : string -> Prop)
    (P : @IntlManager Opaque Formatters Formats -> Prop)
    (sl : string -> @World Opaque Formatters Formats -> Outcome) (actions : list Action) :
  (forall locale w, ok locale -> P (manager w) -> P (manager (snd (sl locale w)))) ->
  (forall callback this, P this -> P (onLocaleChange callback this)) ->
  (forall callback this, P this -> P (disposer callback this)) ->
  (forall locale, CallSetLocale locale ∈ actions -> ok locale) ->
  forall w, P (manager w) -> P (manager (snd (run_body sl actions w))).
Proof.
  intros Hsl Hadd Hdel. induction actions as [|a actions IH]; intros Hok w Hw; [done|].
  assert (Hok' : forall locale, CallSetLocale locale ∈ actions -> ok locale)
    by (intros l Hl; apply Hok; by right).
  destruct a as [locale|cb|cb|e]; cbn [run_body].
  - specialize (Hsl locale w (Hok locale ltac:(left)) Hw).
    destruct (sl locale w) as [[[[]|e]|] w']; try exact Hsl. by apply IH.
  - apply IH; [done|]. by apply Hadd.
  - apply IH; [done|]. by apply Hdel.
  - done.
Qed.

Lemma setLocale_with_invariant
    (P : @IntlManager Opaque Formatters Formats -> Prop)
    (emit : string -> @World Opaque Formatters Formats -> Outcome) :
  (forall intl' this, P this -> P (assign_intl intl' this)) ->
  (forall locale w, P (manager w) -> P (manager (snd (emit locale w)))) ->
  forall locale w,
    P (assign_currentLocale locale (manager w)) ->
    P (manager (snd (setLocale_with createIntl emit locale w))).
Proof.
  intros Hintl Hemit locale w Hw. unfold setLocale_with.
  destruct (createIntl _) as [intl'|e]; [|done].
  apply Hemit. cbn. by apply Hintl.
Qed.

Lemma emitLocaleChange_invariant (ok : string -> Prop)
    (P : @IntlManager Opaque Formatters Formats -> Prop) :
  (forall locale this, ok locale -> P this -> P (assign_currentLocale locale this)) ->
  (forall intl' this, P this -> P (assign_intl intl' this)) ->
  (forall callback this, P this -> P (onLocaleChange callback this)) ->
  (forall callback this, P this -> P (disposer callback this)) ->
  (forall callback locale locale', CallSetLocale locale' ∈ body callback locale -> ok locale') ->
  forall fuel L index w,
    P (manager w) ->
    P (manager (snd (emitLocaleChange_from createIntl body fuel L index w))).
Proof.
  intros Hset Hintl Hadd Hdel Hok. induction fuel as [|fuel IH]; intros L index w Hw; [done|].
  rewrite emitLocaleChange_from_S.
  destruct (_localeSubscriptions (manager w) !! index) as [[callback|]|]; [|by apply IH|done].
  assert (Hrun : P (manager (snd (run_body (setLocale createIntl body fuel)
                                    (body callback L) (record_call callback L w))))).
  { apply (run_body_invariant ok); try done; [|by apply Hok].
    intros locale w1 Hlocale Hw1. unfold setLocale.
    apply setLocale_with_invariant; [done| |by apply Hset].
    intros locale' w2 Hw2. by apply IH. }
  destruct (run_body (setLocale createIntl body fuel) (body callback L)
              (record_call callback L w)) as [[[[]|e]|] w']; try exact Hrun.
  by apply IH.
Qed.

(** C7, as amended.  [currentLocale] is the string last assigned to it, and
    nothing validates it.  A constructed manager has the constructor's
    argument ([en-US] when omitted); [onLocaleChange] and a disposer leave it
    alone; at every point of a call [setLocale(L)], also when the call
    throws, it is [L] or a locale that a subscriber has passed to
    [setLocale].  So it is non-empty after construction unless the
    constructor is given the empty string, and non-empty throughout a call
    of [setLocale] whenever that call, and every [setLocale] call the
    subscribers make, is given a non-empty locale. *)
Theorem currentLocale_is_the_locale_last_given :
  (forall IntlMessageFormat_formats defaultLocale_arg elements this,
     constructor (Opaque:=Opaque) IntlMessageFormat_formats createIntl
       defaultLocale_arg elements = Normal this ->
     currentLocale this = default DEFAULT_LOCALE defaultLocale_arg
     /\ (defaultLocale_arg <> Some "" -> currentLocale this <> ""))
  /\ (forall callback this,
        currentLocale (onLocaleChange callback this) = currentLocale this
        /\ currentLocale (disposer callback this) = currentLocale this)
  /\ (forall fuel L w,
        currentLocale (manager (snd (setLocale createIntl body fuel L w))) = L
        \/ exists callback locale M,
             CallSetLocale M ∈ body callback locale
             /\ currentLocale (manager (snd (setLocale createIntl body fuel L w))) = M)
  /\ ((forall callback locale locale',
         CallSetLocale locale' ∈ body callback locale -> locale' <> "") ->
      forall fuel L w,
        L <> "" ->
        currentLocale (manager (snd (setLocale createIntl body fuel L w))) <> "").
Proof.
  split; [|split; [done|split]].
  - intros fm arg elements this. unfold constructor.
    destruct (createIntl _) as [intl'|e]; [|done]. cbn [bindC].
    intros [= <-]. cbn [currentLocale]. split; [done|].
    destruct arg as [l|]; simpl; [congruence|done].
  - intros fuel L w.
    set (P := fun this : @IntlManager Opaque Formatters Formats =>
                currentLocale this = L
                \/ exists callback locale M,
                     CallSetLocale M ∈ body callback locale /\ currentLocale this = M).
    assert (Hloop : forall locale w1, P (manager w1) ->
              P (manager (snd (emitLocaleChange createIntl body fuel locale w1)))).
    { intros locale w1 Hw1. unfold emitLocaleChange.
      apply (emitLocaleChange_invariant
               (fun M => exists callback locale, CallSetLocale M ∈ body callback locale));
        try done.
      - intros M this (callback & l & Hcall) _. right. by exists callback, l, M.
      - intros callback l M Hcall. by exists callback, l. }
    unfold setLocale.
    apply (setLocale_with_invariant P); [by intros intl' this H|exact Hloop|by left].
  - intros Hbody fuel L w HL. unfold setLocale.
    apply (setLocale_with_invariant (fun this => currentLocale this <> "")); try done.
    intros locale w1 Hw1. unfold emitLocaleChange.
    by apply (emitLocaleChange_invariant (fun M => M <> "")).
Qed.

End Notification.

(** ** Scenarios of locale change *)

Lemma Scenario_constructor :
  constructor (Opaque:=nat) true Scenario.createIntl None ∅ = Normal Scenario.new_manager.
Proof. reflexivity. Qed.

(** C1, as stated, fails: with subscribers [1] and [2] registered in that
    order and [1] throwing, [setLocale("fr")] ends with that exception and
    subscriber [2] is never called. *)
Lemma throwing_subscriber_silences_the_rest :
  JSSet.values (_localeSubscriptions (manager Scenario.two_subscribers)) = [1; 2]
  /\ Scenario.first_throws 1 "fr" = [Raise (Exception 7)]
  /\ fst (setLocale Scenario.createIntl Scenario.first_throws 3 "fr" Scenario.two_subscribers)
     = Some (Throw (Exception 7))
  /\ ~ (2, "fr") ∈ notified
         (snd (setLocale Scenario.createIntl Scenario.first_throws 3 "fr"
                 Scenario.two_subscribers)).
Proof.
  repeat split. vm_compute. intros H.
  apply list_elem_of_In in H. simpl in H. intuition congruence.
Qed.

Lemma setLocale_stops_at_throwing_subscriber_witness :
  exists w',
    (forall fuel,
       length [Some 1] < fuel ->
       setLocale Scenario.createIntl Scenario.second_disposes_first_and_throws fuel "fr"
         Scenario.three_subscribers
       = (Some (Throw (Exception 7)), w'))
    /\ currentLocale (manager w') = "fr"
    /\ notified w'
       = notified Scenario.three_subscribers
         ++ notifications "fr" (JSSet.values [Some 1]) ++ [(2, "fr")].
Proof.
  apply (setLocale_stops_at_throwing_subscriber Scenario.createIntl
           Scenario.second_disposes_first_and_throws "fr" Scenario.three_subscribers
           {| formatters := "fr"; formats := false |}
           [Some 1] [Some 3] 2 (Exception 7) [CallDisposer 1] []).
  - reflexivity.
  - reflexivity.
  - intros before0 after0 earlier Hsplit.
    destruct before0 as [|x [|y before0]]; simplify_eq/=. constructor.
  - reflexivity.
  - constructor; [|constructor]. simpl. intros Hin.
    apply list_elem_of_In in Hin. vm_compute in Hin. destruct Hin as [H|[]]. discriminate.
Defined.

(** C6, as stated, fails: subscriber [1] disposes of subscriber [2] while it
    is being notified; [setLocale("fr")] returns normally, and subscriber
    [2], registered when the call was made, has not been called. *)
Lemma disposed_subscriber_is_not_notified :
  2 ∈ JSSet.values (_localeSubscriptions (manager Scenario.two_subscribers))
  /\ fst (setLocale Scenario.createIntl Scenario.first_disposes_second 3 "fr"
            Scenario.two_subscribers)
     = Some (Normal tt)
  /\ times_notified 2 "fr"
       (notified (snd (setLocale Scenario.createIntl Scenario.first_disposes_second 3 "fr"
                         Scenario.two_subscribers)))
     = 0.
Proof.
  split; [|split; reflexivity].
  apply list_elem_of_In. vm_compute. tauto.
Qed.

Lemma setLocale_notifies_each_subscriber_once_witness :
  exists enough w' (extra : list Callback),
    (forall fuel,
       enough <= fuel ->
       setLocale Scenario.createIntl Scenario.first_hands_over_to_third fuel "fr"
         Scenario.two_subscribers
       = (Some (Normal tt), w'))
    /\ currentLocale (manager w') = "fr"
    /\ intl (manager w') = {| formatters := "fr"; formats := false |}
    /\ notified w'
       = notified Scenario.two_subscribers
         ++ notifications "fr"
              (JSSet.values (_localeSubscriptions (manager Scenario.two_subscribers)))
         ++ notifications "fr" extra
    /\ (forall added,
          added ∈ extra ->
          added ∉ JSSet.values (_localeSubscriptions (manager Scenario.two_subscribers)))
    /\ forall callback,
         callback ∈ JSSet.values (_localeSubscriptions (manager Scenario.two_subscribers)) ->
         times_notified callback "fr"
           (notifications "fr"
              (JSSet.values (_localeSubscriptions (manager Scenario.two_subscribers)))
            ++ notifications "fr" extra) = 1.
Proof.
  apply (setLocale_notifies_each_subscriber_once Scenario.createIntl
           Scenario.first_hands_over_to_third "fr" Scenario.two_subscribers
           {| formatters := "fr"; formats := false |}).
  - apply JSSet_add_NoDup, JSSet_add_NoDup, JSSet_new_NoDup.
  - reflexivity.
  - intros before after callback Hsplit.
    change (_localeSubscriptions (manager Scenario.two_subscribers))
      with [Some 1; Some 2] in Hsplit.
    destruct before as [|x [|y [|z before]]]; simplify_eq/=.
    + constructor; [|constructor; [|constructor]].
      * simpl. intros Hin. apply list_elem_of_In in Hin. vm_compute in Hin.
        destruct Hin as [H|[]]. discriminate.
      * simpl. split; [|reflexivity]. intros Hin. apply list_elem_of_In in Hin.
        vm_compute in Hin. destruct Hin as [H|[H|[]]]; discriminate.
    + constructor.
Defined.

(** C7, as stated, fails: [setLocale("")] is accepted and leaves
    [currentLocale] empty, and so does a constructor given [""]. *)
Lemma currentLocale_can_be_empty :
  fst (setLocale Scenario.createIntl Scenario.quiet 3 "" Scenario.two_subscribers)
  = Some (Normal tt)
  /\ currentLocale
       (manager (snd (setLocale Scenario.createIntl Scenario.quiet 3 ""
                        Scenario.two_subscribers))) = ""
  /\ exists this,
       constructor (Opaque:=nat) true Scenario.createIntl (Some "") ∅ = Normal this
       /\ currentLocale this = "".
Proof. repeat split. by eexists. Qed.

Lemma currentLocale_is_the_locale_last_given_witness :
  (currentLocale Scenario.new_manager = default DEFAULT_LOCALE None
   /\ (None <> Some "" -> currentLocale Scenario.new_manager <> ""))
  /\ currentLocale
       (manager (snd (setLocale Scenario.createIntl Scenario.first_redirects 9 "fr"
                        Scenario.two_subscribers))) <> "".
Proof.
  pose proof (currentLocale_is_the_locale_last_given (Opaque:=nat)
                Scenario.createIntl Scenario.first_redirects) as (Hnew & _ & _ & Hset).
  split.
  - apply (Hnew true None ∅). reflexivity.
  - apply Hset; [|discriminate].
    intros callback locale locale' Hin. unfold Scenario.first_redirects in Hin.
    destruct (Nat.eqb callback 1 && String.eqb locale "fr").
    + apply list_elem_of_In in Hin. simpl in Hin.
      destruct Hin as [H|[H|[]]]; [discriminate|]. injection H as <-. discriminate.
    + by apply elem_of_nil in Hin.
Defined.

(** ** The watcher *)

Section FaultIsolation.

Context {Env : Type}.
Context (isMessageDefinitionsFile : string -> bool).
Context (processDefinitionsFile : string -> Env -> Completion unit * Env).
Context (precompile :
  string -> string -> string -> IntlCompiledMessageFormat -> Env -> Completion unit * Env).
Context (cwd : string).

Abbreviation processFile' :=
  (processFile isMessageDefinitionsFile processDefinitionsFile precompile cwd).
Abbreviation compileIntlMessageFiles' :=
  (compileIntlMessageFiles isMessageDefinitionsFile processDefinitionsFile precompile cwd).

Implicit Types (h : @Host Env) (filePath : string).

(** Unfolds the statement combinators down to the host they act on. *)
Ltac run_statements :=
  unfold seq, try_catch, database, debug, console_error, write_log, ret; simpl.

Lemma processFile_returns filePath h : fst (processFile' filePath h) = Normal tt.
Proof.
  unfold processFile.
  destruct (isMessageDefinitionsFile filePath); [|done]. run_statements.
  destruct (processDefinitionsFile filePath (env h)) as [[[]|e] env1]; [|done].
  simpl.
  by destruct (precompile filePath "en-US" (outputPath cwd filePath) Json env1) as [[[]|e] env2].
Qed.

(** A failure of either database call is caught and written to the log. *)
Lemma processFile_logs_failure filePath h (e : Thrown) (env' : Env) :
  isMessageDefinitionsFile filePath = true ->
  processDefinitionsFile filePath (env h) = (Throw e, env')
  \/ (exists env1,
        processDefinitionsFile filePath (env h) = (Normal tt, env1)
        /\ precompile filePath "en-US" (outputPath cwd filePath) Json env1 = (Throw e, env')) ->
  processFile' filePath h
  = (Normal tt,
     {| env := env';
        log := log h ++ [Debug ("Processing file: " +:+ filePath);
                         Debug "[INTL Error] Failed to compile messages";
                         ConsoleError e] |}).
Proof.
  intros Hdef Hfail. unfold processFile. rewrite Hdef. run_statements.
  destruct Hfail as [H1|(env1 & H1 & H2)]; rewrite H1; simpl; [|rewrite H2; simpl];
    by rewrite <- !app_assoc.
Qed.

(** A loop whose iterations never throw runs all of them. *)
Lemma for_of_all_iterations {A : Type} (body : A -> Stmt unit) (xs : list A) :
  (forall x h, fst (body x h) = Normal tt) ->
  forall h, for_of xs body h = (Normal tt, fold_left (fun h' x => snd (body x h')) xs h).
Proof.
  intros Hbody. induction xs as [|x xs IH]; intros h; [done|].
  cbn [for_of fold_left]. unfold seq. specialize (Hbody x h).
  destruct (body x h) as [c h1]. simpl in *. subst c. apply IH.
Qed.

Lemma compileIntlMessageFiles_returns found watch events h :
  fst (compileIntlMessageFiles' found watch events h) = Normal tt.
Proof.
  unfold compileIntlMessageFiles, seq at 1 2, debug at 1, write_log. simpl.
  rewrite for_of_all_iterations by apply processFile_returns.
  unfold seq at 1, debug at 1, write_log. simpl.
  destruct watch; [|done].
  unfold seq at 1, debug at 1, write_log. simpl.
  rewrite for_of_all_iterations; [done|].
  intros [event filePath] h'. run_statements.
  apply processFile_returns.
Qed.

(** C4.  [processFile] never throws, whatever the path and the behaviour of
    the database: a failure of [processDefinitionsFile] or of [precompile] is
    caught and logged with [console.error]; so the scan calls [processFile]
    on every path found, one after the other, and [compileIntlMessageFiles]
    (scan, then watch events) completes normally. *)
Theorem processFile_isolates_failures :
  (forall filePath h, fst (processFile' filePath h) = Normal tt)
  /\ (forall filePath h e env',
        isMessageDefinitionsFile filePath = true ->
        processDefinitionsFile filePath (env h) = (Throw e, env')
        \/ (exists env1,
              processDefinitionsFile filePath (env h) = (Normal tt, env1)
              /\ precompile filePath "en-US" (outputPath cwd filePath) Json env1
                 = (Throw e, env')) ->
        processFile' filePath h
        = (Normal tt,
           {| env := env';
              log := log h ++ [Debug ("Processing file: " +:+ filePath);
                               Debug "[INTL Error] Failed to compile messages";
                               ConsoleError e] |}))
  /\ (forall found h,
        for_of found processFile' h
        = (Normal tt, fold_left (fun h' filePath => snd (processFile' filePath h')) found h))
  /\ (forall found watch events h,
        fst (compileIntlMessageFiles' found watch events h) = Normal tt).
Proof.
  split; [exact processFile_returns|].
  split; [exact processFile_logs_failure|].
  split; [|exact compileIntlMessageFiles_returns].
  intros found h. apply for_of_all_iterations, processFile_returns.
Qed.

End FaultIsolation.

Lemma processFile_isolates_failures_witness :
  processFile Scenario.isMessageDefinitionsFile Scenario.processDefinitionsFile
    Scenario.precompile "/app" "/app/bad.messages.js" Scenario.empty_host
  = (Normal tt,
     {| env := [];
        log := [Debug "Processing file: /app/bad.messages.js";
                Debug "[INTL Error] Failed to compile messages";
                ConsoleError (Exception 1)] |}).
Proof.
  apply (proj1 (proj2 (processFile_isolates_failures
                         Scenario.isMessageDefinitionsFile Scenario.processDefinitionsFile
                         Scenario.precompile "/app"))
           "/app/bad.messages.js" Scenario.empty_host (Exception 1) []).
  - reflexivity.
  - left. reflexivity.
Defined.

(** ** Output paths *)

Lemma append_cons (x : ascii) (a b : string) : String x a +:+ b = String x (a +:+ b).
Proof. reflexivity. Qed.

Lemma append_empty_l (a : string) : "" +:+ a = a.
Proof. reflexivity. Qed.

Lemma append_assoc (a b c : string) : (a +:+ b) +:+ c = a +:+ (b +:+ c).
Proof.
  induction a as [|x a IH]; [done|]. by rewrite !append_cons, IH.
Qed.

Lemma append_empty_r (a : string) : a +:+ "" = a.
Proof.
  induction a as [|x a IH]; [done|]. by rewrite append_cons, IH.
Qed.

Lemma length_append (a b : string) :
  String.length (a +:+ b) = String.length a + String.length b.
Proof.
  induction a as [|x a IH]; [done|]. rewrite append_cons. simpl. by rewrite IH.
Qed.

Lemma prefix_length (a s : string) :
  String.prefix a s = true -> String.length a <= String.length s.
Proof.
  revert s. induction a as [|x a IH]; intros s H; simpl; [lia|].
  destruct s as [|y s]; simpl in *; [done|].
  destruct (ascii_dec x y); [|done]. apply IH in H. lia.
Qed.

Lemma prefix_append (a b : string) : String.prefix a (a +:+ b) = true.
Proof.
  induction a as [|x a IH]; [by destruct b|]. rewrite append_cons. simpl.
  by destruct (ascii_dec x x).
Qed.

Lemma lastIndexOf_from_short (s needle : string) :
  forall i, String.length s < String.length needle ->
            JSString.lastIndexOf_from i s needle = None.
Proof.
  induction s as [|x s IH]; intros i Hlen; cbn [JSString.lastIndexOf_from].
  - destruct needle; [simpl in Hlen; lia|done].
  - rewrite IH by (simpl in Hlen; lia).
    destruct (String.prefix needle (String x s)) eqn:Hp; [|done].
    apply prefix_length in Hp. lia.
Qed.

(** In a string that ends with [needle], the last occurrence of [needle] is
    that ending. *)
Lemma lastIndexOf_from_suffix (base needle : string) :
  forall i, JSString.lastIndexOf_from i (base +:+ needle) needle
            = Some (i + String.length base).
Proof.
  induction base as [|x base IH]; intros i;
    [rewrite append_empty_l|rewrite append_cons]; cbn [JSString.lastIndexOf_from String.length].
  - rewrite Nat.add_0_r. destruct needle as [|y needle]; [done|].
    cbn [JSString.lastIndexOf_from].
    rewrite lastIndexOf_from_short by (simpl; lia).
    pose proof (prefix_append (String y needle) "") as Hp.
    rewrite append_empty_r in Hp. by rewrite Hp.
  - rewrite IH. f_equal. lia.
Qed.

Lemma substring_of_append (a b : string) :
  String.substring 0 (String.length a) (a +:+ b) = a.
Proof.
  induction a as [|x a IH]; [by destruct b|]. rewrite append_cons. simpl. by rewrite IH.
Qed.

Lemma fileBasename_of_definition_file (base : string) :
  fileBasename (base +:+ definition_suffix) = base.
Proof.
  unfold fileBasename, JSString.lastIndexOf, JSString.substring, JSString.clamp.
  pose proof (lastIndexOf_from_suffix base definition_suffix 0) as Hlast.
  simpl in Hlast. rewrite Hlast, Nat2Z.id, length_append.
  change (Z.to_nat 0) with 0.
  rewrite Nat.min_0_l, (Nat.min_l (String.length base)) by lia.
  rewrite Nat.min_0_l, Nat.max_0_l, Nat.sub_0_r.
  apply substring_of_append.
Qed.

Lemma split_not_nil (p : string) : path.split p <> [].
Proof.
  induction p as [|x p IH]; simpl; [done|].
  destruct (Ascii.eqb x path.slash); [done|]. by destruct (path.split p).
Qed.

Lemma split_at_slash (a b : string) :
  path.split (a +:+ String path.slash b) = path.split a ++ path.split b.
Proof.
  induction a as [|x a IH]; [done|]. rewrite append_cons. cbn [path.split].
  destruct (Ascii.eqb x path.slash); [by rewrite IH|].
  rewrite IH. pose proof (split_not_nil a). by destruct (path.split a).
Qed.

Lemma split_no_slash (seg : string) : no_slash seg = true -> path.split seg = [seg].
Proof.
  unfold no_slash. induction seg as [|x seg IH]; [done|]. simpl.
  intros H. apply andb_true_iff in H as [Hx Hseg].
  apply negb_true_iff in Hx. rewrite Hx, IH; done.
Qed.

Lemma join_segments_cons (seg seg' : string) (segs : list string) :
  path.join_segments (seg :: seg' :: segs)
  = seg +:+ String path.slash (path.join_segments (seg' :: segs)).
Proof. reflexivity. Qed.

Lemma split_join_segments (segs : list string) :
  segs <> [] -> forallb no_slash segs = true ->
  path.split (path.join_segments segs) = segs.
Proof.
  induction segs as [|seg segs IH]; [done|]. intros _ H.
  apply andb_true_iff in H as [Hseg Hsegs].
  destruct segs as [|seg' segs]; [by apply split_no_slash|].
  rewrite join_segments_cons, split_at_slash, split_no_slash, IH; done.
Qed.

Lemma plain_segment_no_slash (seg : string) : plain_segment seg = true -> no_slash seg = true.
Proof. unfold plain_segment. intros H. by apply andb_true_iff in H as [_ ?]. Qed.

Lemma normalize_segments_plain (allowAboveRoot : bool) (segs : list string) :
  forallb plain_segment segs = true ->
  forall res rest,
    path.normalize_segments allowAboveRoot res (segs ++ rest)
    = path.normalize_segments allowAboveRoot (rev segs ++ res) rest.
Proof.
  induction segs as [|seg segs IH]; intros H res rest; [done|].
  apply andb_true_iff in H as [Hseg Hsegs].
  unfold plain_segment in Hseg.
  apply andb_true_iff in Hseg as [Hseg _].
  apply andb_true_iff in Hseg as [Hseg Hdd].
  apply andb_true_iff in Hseg as [He Hd].
  apply negb_true_iff in He, Hd, Hdd.
  cbn [app path.normalize_segments]. rewrite He, Hd, Hdd. cbn [orb].
  rewrite IH by done. cbn [rev]. by rewrite <- app_assoc.
Qed.

Lemma join_segments_snoc_append (dirs : list string) (a b : string) :
  path.join_segments (dirs ++ [a +:+ b]) = path.join_segments (dirs ++ [a]) +:+ b.
Proof.
  induction dirs as [|d dirs IH]; [done|].
  destruct dirs as [|d' dirs].
  - cbn [app]. rewrite !join_segments_cons. cbn [path.join_segments].
    rewrite append_assoc. done.
  - change ((d :: d' :: dirs) ++ [a +:+ b]) with (d :: d' :: (dirs ++ [a +:+ b])).
    change ((d :: d' :: dirs) ++ [a]) with (d :: d' :: (dirs ++ [a])).
    rewrite !join_segments_cons.
    change (d' :: dirs ++ [a +:+ b]) with ((d' :: dirs) ++ [a +:+ b]).
    rewrite IH, append_assoc. done.
Qed.

Lemma no_slash_append (a b : string) : no_slash (a +:+ b) = no_slash a && no_slash b.
Proof.
  unfold no_slash. induction a as [|x a IH]; [done|]. rewrite append_cons. simpl.
  by rewrite IH, andb_assoc.
Qed.

Lemma suffixed_name_is_plain (name suffix : string) :
  no_slash name = true -> no_slash suffix = true -> 3 <= String.length suffix ->
  plain_segment (name +:+ suffix) = true.
Proof.
  intros Hname Hsuffix Hlong. unfold plain_segment.
  assert (Hlen : 3 <= String.length (name +:+ suffix))
    by (rewrite length_append; lia).
  rewrite no_slash_append, Hname, Hsuffix.
  destruct (String.eqb_spec (name +:+ suffix) "") as [Heq|_];
    [rewrite Heq in Hlen; simpl in Hlen; lia|].
  destruct (String.eqb_spec (name +:+ suffix) ".") as [Heq|_];
    [rewrite Heq in Hlen; simpl in Hlen; lia|].
  destruct (String.eqb_spec (name +:+ suffix) "..") as [Heq|_];
    [rewrite Heq in Hlen; simpl in Hlen; lia|].
  reflexivity.
Qed.

Lemma compiled_name_is_plain (name : string) :
  no_slash name = true -> plain_segment (name +:+ compiled_suffix) = true.
Proof. intros H. apply suffixed_name_is_plain; [done|reflexivity|simpl; lia]. Qed.

Lemma definition_name_is_plain (name : string) :
  no_slash name = true -> plain_segment (name +:+ definition_suffix) = true.
Proof. intros H. apply suffixed_name_is_plain; [done|reflexivity|simpl; lia]. Qed.

(** [resolve] ignores what comes before an absolute argument. *)
Lemma resolve_absolute_last (cwd dir rest : string) :
  path.resolve cwd [dir; String path.slash rest]
  = "/" +:+ path.normalizeString (String path.slash (rest +:+ String path.slash "")) false.
Proof.
  unfold path.resolve. cbn [rev app path.resolve_loop String.eqb path.isAbsolute].
  rewrite Ascii.eqb_refl. cbn [negb]. by rewrite append_cons, append_empty_r.
Qed.

Lemma normalizeString_absolute (segs : list string) :
  segs <> [] -> forallb plain_segment segs = true ->
  path.normalizeString
    (String path.slash (path.join_segments segs +:+ String path.slash "")) false
  = path.join_segments segs.
Proof.
  intros Hne Hplain.
  assert (Hns : forallb no_slash segs = true).
  { apply forallb_forall. intros seg Hin. apply plain_segment_no_slash.
    by apply (proj1 (forallb_forall _ _) Hplain). }
  unfold path.normalizeString.
  rewrite <- (append_empty_l (String path.slash _)).
  rewrite !split_at_slash, split_join_segments by done.
  cbn [path.split app path.normalize_segments String.eqb orb].
  rewrite normalize_segments_plain by done.
  cbn [path.normalize_segments String.eqb orb]. by rewrite app_nil_r, rev_involutive.
Qed.

Lemma list_ascii_of_append (a b : string) :
  list_ascii_of_string (a +:+ b) = list_ascii_of_string a ++ list_ascii_of_string b.
Proof.
  induction a as [|x a IH]; [done|]. rewrite append_cons. simpl. by rewrite IH.
Qed.

Lemma length_list_ascii (a : string) : length (list_ascii_of_string a) = String.length a.
Proof. induction a as [|x a IH]; simpl; [done|by rewrite IH]. Qed.

(** The backward scan of [dirname] passes over characters that are not
    separators. *)
Lemma dirname_scan_skip (chars : list ascii) :
  (forall c, In c chars -> Ascii.eqb c path.slash = false) ->
  forall i rest,
    path.dirname_scan i (chars ++ rest) false
    = path.dirname_scan (i - length chars) rest false.
Proof.
  induction chars as [|c chars IH]; intros Hchars i rest; simpl.
  - by rewrite Nat.sub_0_r.
  - rewrite (Hchars c) by (by left). rewrite IH by (intros c' Hc'; apply Hchars; by right).
    f_equal. lia.
Qed.

Lemma dirname_scan_name (chars : list ascii) :
  chars <> [] ->
  (forall c, In c chars -> Ascii.eqb c path.slash = false) ->
  forall i rest,
    path.dirname_scan i (chars ++ rest) true
    = path.dirname_scan (i - length chars) rest false.
Proof.
  destruct chars as [|c chars]; [done|]. intros _ Hchars i rest. simpl.
  rewrite (Hchars c) by (by left).
  rewrite dirname_scan_skip by (intros c' Hc'; apply Hchars; by right).
  f_equal. lia.
Qed.

Lemma join_segments_snoc (dirs : list string) (name : string) :
  dirs <> [] ->
  path.join_segments (dirs ++ [name])
  = path.join_segments dirs +:+ String path.slash name.
Proof.
  induction dirs as [|d dirs IH]; [done|]. intros _.
  destruct dirs as [|d' dirs]; [done|].
  change ((d :: d' :: dirs) ++ [name]) with (d :: d' :: (dirs ++ [name])).
  rewrite !join_segments_cons.
  change (d' :: dirs ++ [name]) with ((d' :: dirs) ++ [name]).
  rewrite IH by done. by rewrite append_assoc, append_cons.
Qed.

Lemma plain_segment_not_empty (seg : string) :
  plain_segment seg = true -> 1 <= String.length seg.
Proof.
  unfold plain_segment. destruct seg; [done|]. simpl. lia.
Qed.

Lemma no_slash_chars (seg : string) :
  no_slash seg = true ->
  forall c, In c (rev (list_ascii_of_string seg)) -> Ascii.eqb c path.slash = false.
Proof.
  unfold no_slash. intros H c Hc. apply in_rev in Hc.
  apply (proj1 (forallb_forall _ _) H) in Hc. by apply negb_true_iff in Hc.
Qed.

(** The directory of a normalized absolute path is the path of the names
    before the last. *)
Lemma dirname_of_absolute_path (dirs : list string) (name : string) :
  forallb plain_segment dirs = true ->
  plain_segment name = true ->
  path.dirname (absolute_path (dirs ++ [name])) = absolute_path dirs.
Proof.
  intros Hdirs Hname. unfold absolute_path.
  rewrite !append_cons, !append_empty_l. unfold path.dirname.
  rewrite Ascii.eqb_refl.
  assert (Hchars := no_slash_chars name (plain_segment_no_slash name Hname)).
  assert (Hlen := plain_segment_not_empty name Hname).
  assert (Hne : rev (list_ascii_of_string name) <> []).
  { intros Hnil. apply (f_equal length) in Hnil.
    rewrite length_rev, length_list_ascii in Hnil. simpl in Hnil. lia. }
  destruct dirs as [|d dirs].
  - cbn [app path.join_segments].
    rewrite <- (app_nil_r (rev _)), dirname_scan_name by done. done.
  - rewrite join_segments_snoc by done.
    set (J := path.join_segments (d :: dirs)).
    assert (HJ : 1 <= String.length J).
    { unfold J. apply andb_true_iff in Hdirs as [Hd _].
      apply plain_segment_not_empty in Hd.
      destruct dirs; [done|]. rewrite join_segments_cons, length_append. lia. }
    rewrite list_ascii_of_append. cbn [list_ascii_of_string].
    rewrite rev_app_distr. cbn [rev]. rewrite <- app_assoc. cbn [app].
    rewrite dirname_scan_name by done.
    rewrite length_rev, length_list_ascii, length_append. cbn [String.length].
    replace (String.length J + S (String.length name) - String.length name)
      with (S (String.length J)) by lia.
    cbn [path.dirname_scan]. rewrite Ascii.eqb_refl.
    replace (S (String.length J) =? 1)%nat with false
      by (symmetry; apply Nat.eqb_neq; lia).
    cbn [andb].
    exact (substring_of_append (String path.slash J) (String path.slash name)).
Qed.

(** X19.  On a normalized absolute path of a definition file, [processFile]
    computes the path with the definition suffix replaced by the compiled
    suffix, in the directory of the definition file, whatever the working
    directory. *)
Lemma outputPath_of_absolute_path (cwd : string) (dirs : list string) (name : string) :
  forallb plain_segment dirs = true ->
  no_slash name = true ->
  outputPath cwd (absolute_path (dirs ++ [name +:+ definition_suffix]))
  = absolute_path (dirs ++ [name +:+ compiled_suffix])
  /\ path.dirname (outputPath cwd (absolute_path (dirs ++ [name +:+ definition_suffix])))
     = path.dirname (absolute_path (dirs ++ [name +:+ definition_suffix])).
Proof.
  intros Hdirs Hname.
  assert (Houtput : outputPath cwd (absolute_path (dirs ++ [name +:+ definition_suffix]))
                    = absolute_path (dirs ++ [name +:+ compiled_suffix])).
  { assert (Hsuffix : forall suffix,
               absolute_path (dirs ++ [name +:+ suffix])
               = absolute_path (dirs ++ [name]) +:+ suffix).
    { intros suffix. unfold absolute_path.
      by rewrite join_segments_snoc_append, append_assoc. }
    unfold outputPath. rewrite (Hsuffix definition_suffix), fileBasename_of_definition_file.
    rewrite <- (Hsuffix compiled_suffix).
    set (segs := dirs ++ [name +:+ compiled_suffix]).
    assert (Hplain : forallb plain_segment segs = true).
    { unfold segs. rewrite forallb_app, Hdirs. simpl.
      by rewrite compiled_name_is_plain. }
    assert (Hne : segs <> []) by (unfold segs; by destruct dirs).
    unfold absolute_path at 2 3. rewrite !append_cons, !append_empty_l.
    by rewrite resolve_absolute_last, normalizeString_absolute. }
  split; [exact Houtput|].
  rewrite Houtput, !dirname_of_absolute_path;
    auto using compiled_name_is_plain, definition_name_is_plain.
Qed.

(** C5.  Given the relative path [src/a.messages.js] (which chokidar reports
    when it watches the relative folder [src]) in a process working in [/w],
    [processFile] computes an output path under [/w/src/src], not in the
    directory [/w/src] of the definition file; given the absolute path of the
    same file it computes [/w/src/a.compiled.messages.jsona]. *)
Theorem outputPath_of_relative_path_repeats_the_directory :
  outputPath "/w" "src/a.messages.js" = "/w/src/src/a.compiled.messages.jsona"
  /\ path.dirname (outputPath "/w" "src/a.messages.js") = "/w/src/src"
  /\ path.resolve "/w" ["src/a.messages.js"] = "/w/src/a.messages.js"
  /\ path.dirname (path.resolve "/w" ["src/a.messages.js"]) = "/w/src"
  /\ outputPath "/w" "/w/src/a.messages.js" = "/w/src/a.compiled.messages.jsona".
Proof. repeat split. Qed.

Lemma outputPath_of_absolute_path_witness :
  outputPath "/elsewhere" (absolute_path (["w"; "src"] ++ ["a" +:+ definition_suffix]))
  = absolute_path (["w"; "src"] ++ ["a" +:+ compiled_suffix])
  /\ path.dirname
       (outputPath "/elsewhere" (absolute_path (["w"; "src"] ++ ["a" +:+ definition_suffix])))
     = path.dirname (absolute_path (["w"; "src"] ++ ["a" +:+ definition_suffix])).
Proof. apply outputPath_of_absolute_path; reflexivity. Defined.

(** * Further properties *)

(** ** More on the coalescing loop *)

Section CoalescingText.

Context {Opaque : Type} (ToString : Opaque -> string).

Implicit Types (p q : @Part Opaque) (parts : list (@Part Opaque)).
Implicit Types (v : @Value Opaque) (entries : list (@Value Opaque)).

Lemma text_of_cons v entries :
  text_of ToString (v :: entries) = js_ToString ToString v +:+ text_of ToString entries.
Proof. reflexivity. Qed.

Lemma text_of_app entries entries' :
  text_of ToString (entries ++ entries')
  = text_of ToString entries +:+ text_of ToString entries'.
Proof.
  induction entries as [|v entries IH]; [done|].
  cbn [app]. by rewrite !text_of_cons, IH, append_assoc.
Qed.

Lemma js_ToString_fold parts :
  forall v,
    js_ToString ToString (fold_left (fun acc q => js_add ToString acc (value q)) parts v)
    = js_ToString ToString v +:+ text_of ToString (value <$> parts).
Proof.
  induction parts as [|p parts IH]; intros v.
  - cbn [fold_left]. by rewrite append_empty_r.
  - cbn [fold_left]. rewrite IH, fmap_cons, text_of_cons.
    cbn [js_add js_ToString]. by rewrite append_assoc.
Qed.

Lemma js_ToString_merged (g : list (@Part Opaque)) :
  js_ToString ToString (merged ToString g) = text_of ToString (value <$> g).
Proof. destruct g as [|p g]; [done|]. apply js_ToString_fold. Qed.

Lemma text_of_merged_groups (gs : list (list (@Part Opaque))) :
  text_of ToString (merged ToString <$> gs) = text_of ToString (value <$> concat gs).
Proof.
  induction gs as [|g gs IH]; [done|].
  cbn [concat]. by rewrite fmap_cons, text_of_cons, fmap_app, text_of_app, js_ToString_merged, IH.
Qed.

(** X1.  Merging changes how the text is cut into entries, never the text:
    the entries of [coalesce], converted to strings and put end to end, read
    the same as the values of the parts. *)
Theorem coalesce_preserves_text parts :
  text_of ToString (coalesce ToString parts) = text_of ToString (value <$> parts).
Proof.
  rewrite coalesce_runs, text_of_merged_groups. by rewrite concat_runs.
Qed.

Lemma length_runs parts : length (runs parts) <= length parts.
Proof.
  induction parts as [|p parts IH]; [done|]. rewrite runs_cons.
  destruct (runs parts) as [|g gs]; simpl in *; [lia|].
  destruct (is_literal p && from_literal g); simpl; lia.
Qed.

(** X2.  The result has no more entries than there are parts, and it is
    empty only for an empty sequence of parts. *)
Theorem coalesce_length parts :
  length (coalesce ToString parts) <= length parts
  /\ match parts with
     | [] => coalesce ToString parts = []
     | _ :: _ => exists v entries, coalesce ToString parts = v :: entries
     end.
Proof.
  rewrite coalesce_runs, length_fmap. split; [apply length_runs|].
  destruct parts as [|p parts]; [done|]. rewrite runs_cons.
  destruct (runs parts) as [|g gs]; [by eexists _, _|].
  destruct (is_literal p && from_literal g); by eexists _, _.
Qed.

Lemma runs_all_literal parts :
  forallb is_literal parts = true ->
  runs parts = match parts with [] => [] | _ :: _ => [parts] end.
Proof.
  induction parts as [|p parts IH]; [done|]. intros H.
  apply andb_true_iff in H as [Hp Hparts]. rewrite runs_cons, (IH Hparts).
  destruct parts as [|q parts]; [done|].
  apply andb_true_iff in Hparts as [Hq _]. simpl. by rewrite Hp, Hq.
Qed.

(** X3.  A sequence of literal parts only comes out as one entry, the values
    of the parts added up from left to right. *)
Theorem coalesce_of_literal_parts p parts :
  forallb is_literal (p :: parts) = true ->
  coalesce ToString (p :: parts)
  = [fold_left (fun acc q => js_add ToString acc (value q)) parts (value p)].
Proof.
  intros H. by rewrite coalesce_runs, (runs_all_literal _ H).
Qed.

Lemma runs_across_object parts p parts' :
  is_literal p = false ->
  runs (parts ++ p :: parts') = runs parts ++ [p] :: runs parts'.
Proof.
  intros Hp. induction parts as [|q parts IH]; [by apply runs_cons_object|].
  cbn [app]. rewrite !(runs_cons q), IH.
  destruct (runs parts) as [|g gs]; cbn [app from_literal].
  - by rewrite Hp, andb_false_r.
  - by destruct (is_literal q && from_literal g).
Qed.

(** X4.  A non-literal part is a boundary of the loop: what comes before it
    and what comes after it are coalesced independently, and its value stands
    between them untouched. *)
Theorem coalesce_splits_at_object parts p parts' :
  is_literal p = false ->
  coalesce ToString (parts ++ p :: parts')
  = coalesce ToString parts ++ value p :: coalesce ToString parts'.
Proof.
  intros Hp. rewrite !coalesce_runs, runs_across_object by done.
  by rewrite fmap_app.
Qed.

End CoalescingText.

Lemma coalesce_of_literal_parts_witness :
  coalesce Scenario.ToString
    ({| type := literal; value := VString "a" |}
       :: [ {| type := literal; value := VString "b" |};
            {| type := literal; value := VString "c" |} ])
  = [fold_left (fun acc q => js_add Scenario.ToString acc (value q))
       [ {| type := literal; value := VString "b" |};
         {| type := literal; value := VString "c" |} ]
       (VString "a")].
Proof. apply coalesce_of_literal_parts. reflexivity. Defined.

Lemma coalesce_splits_at_object_witness :
  coalesce Scenario.ToString
    ([ {| type := literal; value := VString "a" |};
       {| type := literal; value := VString "b" |} ]
       ++ {| type := object; value := VOpaque 1 |}
       :: [ {| type := literal; value := VString "c" |} ])
  = coalesce Scenario.ToString
      [ {| type := literal; value := VString "a" |};
        {| type := literal; value := VString "b" |} ]
    ++ VOpaque 1 :: coalesce Scenario.ToString [ {| type := literal; value := VString "c" |} ].
Proof. apply coalesce_splits_at_object. reflexivity. Defined.

(** ** Subscribing and disposing *)

Lemma JSSet_values_add (x : Callback) (s : JSSet.t) :
  JSSet.values (JSSet.add x s)
  = if bool_decide (x ∈ JSSet.values s) then JSSet.values s else JSSet.values s ++ [x].
Proof.
  unfold JSSet.add, JSSet.has.
  case_bool_decide as Hin; case_bool_decide as Hin'; try done.
  - by apply JSSet_elem_of_values in Hin.
  - by apply JSSet_elem_of_values in Hin'.
  - by rewrite JSSet_values_app.
Qed.

Lemma JSSet_values_delete (x : Callback) (s : JSSet.t) :
  JSSet.values (JSSet.delete x s) = filter (fun y => y <> x) (JSSet.values s).
Proof.
  unfold JSSet.delete, JSSet.values. induction s as [|[y|] s IH]; [done| |done].
  cbn [fmap list_fmap omap list_omap id]. case_decide as Heq.
  - injection Heq as ->. cbn [omap list_omap id].
    rewrite filter_cons_False by (intros H; by apply H). exact IH.
  - cbn [omap list_omap id].
    rewrite filter_cons_True by congruence. f_equal. exact IH.
Qed.

Lemma JSSet_add_add (x : Callback) (s : JSSet.t) :
  JSSet.add x (JSSet.add x s) = JSSet.add x s.
Proof.
  unfold JSSet.add. destruct (JSSet.has x s) eqn:Hhas; [by rewrite Hhas|].
  unfold JSSet.has. rewrite bool_decide_eq_true_2; [done|].
  apply elem_of_app. right. by left.
Qed.

Lemma JSSet_delete_delete (x : Callback) (s : JSSet.t) :
  JSSet.delete x (JSSet.delete x s) = JSSet.delete x s.
Proof.
  unfold JSSet.delete. rewrite <- list_fmap_compose. apply list_fmap_ext.
  intros i e _. simpl. case_decide; [by case_decide|]. by case_decide.
Qed.

Lemma filter_out_absent (x : Callback) (l : list Callback) :
  x ∉ l -> filter (fun y => y <> x) l = l.
Proof.
  induction l as [|y l IH]; [done|]. intros Hx.
  apply not_elem_of_cons in Hx as [Hne Hx].
  rewrite filter_cons_True by congruence. by rewrite IH.
Qed.

Section Subscriptions.

Context {Opaque Formatters Formats : Type}.

Implicit Types (this : @IntlManager Opaque Formatters Formats).

(** X5.  [onLocaleChange] puts a callback behind the registered ones, unless
    it is registered already, in which case nothing changes; the disposer
    removes exactly that callback and keeps the others in their order. *)
Theorem onLocaleChange_and_disposer_members (callback : Callback) this :
  JSSet.values (_localeSubscriptions (onLocaleChange callback this))
  = (if bool_decide (callback ∈ JSSet.values (_localeSubscriptions this))
     then JSSet.values (_localeSubscriptions this)
     else JSSet.values (_localeSubscriptions this) ++ [callback])
  /\ JSSet.values (_localeSubscriptions (disposer callback this))
     = filter (fun other => other <> callback) (JSSet.values (_localeSubscriptions this)).
Proof. split; [apply JSSet_values_add|apply JSSet_values_delete]. Qed.

(** X6.  Subscribing a callback twice is the same as subscribing it once,
    and so is disposing of it twice: the second call leaves the manager as
    it is. *)
Theorem onLocaleChange_and_disposer_idempotent (callback : Callback) this :
  onLocaleChange callback (onLocaleChange callback this) = onLocaleChange callback this
  /\ disposer callback (disposer callback this) = disposer callback this.
Proof.
  unfold onLocaleChange, disposer.
  cbn [defaultLocale currentLocale intl defaultRichTextElements _localeSubscriptions].
  by rewrite JSSet_add_add, JSSet_delete_delete.
Qed.

(** X7.  Subscribing a callback that was not registered and then calling the
    disposer returned for it gives back the members there were, in the same
    order. *)
Theorem disposer_undoes_onLocaleChange (callback : Callback) this :
  callback ∉ JSSet.values (_localeSubscriptions this) ->
  JSSet.values (_localeSubscriptions (disposer callback (onLocaleChange callback this)))
  = JSSet.values (_localeSubscriptions this).
Proof.
  intros Hfresh. cbn [disposer onLocaleChange _localeSubscriptions].
  rewrite JSSet_values_delete, JSSet_values_add, bool_decide_eq_false_2 by done.
  rewrite filter_app, filter_cons_False, filter_nil, app_nil_r by (intros H; by apply H).
  by apply filter_out_absent.
Qed.

End Subscriptions.

Lemma disposer_undoes_onLocaleChange_witness :
  JSSet.values (_localeSubscriptions
                  (disposer 3 (onLocaleChange 3 (manager Scenario.two_subscribers))))
  = JSSet.values (_localeSubscriptions (manager Scenario.two_subscribers)).
Proof.
  apply disposer_undoes_onLocaleChange.
  intros Hin. apply list_elem_of_In in Hin. vm_compute in Hin.
  destruct Hin as [H|[H|[]]]; discriminate.
Defined.

(** ** More on locale changes *)

Section LocaleChanges.

Context {Opaque : Type} (ToString : Opaque -> string).
Context {Formatters Formats : Type}.
Context (createIntl : @IntlConfig Formats -> Completion (@IntlShape Formatters Formats)).
Context (body : Callback -> string -> list Action).

Implicit Types (w : @World Opaque Formatters Formats).
Implicit Types (this : @IntlManager Opaque Formatters Formats).
Implicit Types (locale L M : string) (fuel index : nat).

(** With a locale that [createIntl] accepts and subscribers that return at
    once, [setLocale] is the two assignments followed by one call for each
    member. *)
Lemma setLocale_quiet fuel L w (intl' : @IntlShape Formatters Formats) :
  createIntl {| cfg_formats := None;
                cfg_defaultLocale := defaultLocale (manager w);
                cfg_locale := L |} = Normal intl' ->
  (forall callback,
     callback ∈ JSSet.values (_localeSubscriptions (manager w)) -> body callback L = []) ->
  length (_localeSubscriptions (manager w)) < fuel ->
  setLocale createIntl body fuel L w
  = (Some (Normal tt),
     also_notified (notifications L (JSSet.values (_localeSubscriptions (manager w))))
       (on_manager (assign_intl intl') (on_manager (assign_currentLocale L) w))).
Proof.
  intros Hintl Hquiet Hfuel. rewrite (setLocale_accepted _ _ _ _ _ _ Hintl).
  unfold emitLocaleChange.
  set (subs := _localeSubscriptions (manager w)) in *.
  set (w1 := on_manager (assign_intl intl') (on_manager (assign_currentLocale L) w)).
  replace fuel with (length subs + S (fuel - S (length subs))) by lia.
  rewrite (emitLocaleChange_over_quiet createIntl body subs [] [] _ L w1);
    [|by rewrite app_nil_r|done].
  by apply emitLocaleChange_at_end.
Qed.


(** X9.  After [setLocale(L)], with a locale that [createIntl] accepts and
    subscribers that return without calling back into the manager, a message
    getter is resolved for [L], and a compiled template is formatted with the
    formatters and formats of the [intl] built for [L] and with the same
    default rich elements as before. *)
Theorem formatToParts_after_setLocale fuel L w (intl' : @IntlShape Formatters Formats)
    f values :
  createIntl {| cfg_formats := None;
                cfg_defaultLocale := defaultLocale (manager w);
                cfg_locale := L |} = Normal intl' ->
  (forall callback,
     callback ∈ JSSet.values (_localeSubscriptions (manager w)) -> body callback L = []) ->
  length (_localeSubscriptions (manager w)) < fuel ->
  formatToParts ToString (manager (snd (setLocale createIntl body fuel L w)))
    (MFunction f) values
  = bindC (f L)
      (fun resolvedMessage =>
         match resolvedMessage with
         | RString s => Normal [VString s]
         | RTemplate t =>
           bindC (tpl_formatToParts t (formatters intl') (formats intl')
                    (resolvedValues (manager w) values))
             (fun parts => Normal (coalesce ToString parts))
         end).
Proof.
  intros Hintl Hquiet Hfuel. rewrite (setLocale_quiet fuel L w intl') by done. reflexivity.
Qed.

(** X10.  A callback that has been disposed of is not called by a later
    [setLocale]: with a locale that [createIntl] accepts and the other
    subscribers returning without calling back into the manager, [setLocale]
    returns and the calls made are one for each of the other members, in
    order. *)
Theorem disposed_callback_is_not_notified fuel L w
    (intl' : @IntlShape Formatters Formats) (callback : Callback) :
  createIntl {| cfg_formats := None;
                cfg_defaultLocale := defaultLocale (manager w);
                cfg_locale := L |} = Normal intl' ->
  (forall other,
     other ∈ JSSet.values (_localeSubscriptions (manager w)) -> other <> callback ->
     body other L = []) ->
  length (_localeSubscriptions (manager w)) < fuel ->
  exists w',
    setLocale createIntl body fuel L (on_manager (disposer callback) w)
    = (Some (Normal tt), w')
    /\ notified w'
       = notified w
         ++ notifications L
              (filter (fun other => other <> callback)
                 (JSSet.values (_localeSubscriptions (manager w))))
    /\ times_notified callback L
         (notifications L
            (filter (fun other => other <> callback)
               (JSSet.values (_localeSubscriptions (manager w))))) = 0.
Proof.
  intros Hintl Hquiet Hfuel.
  rewrite (setLocale_quiet fuel L _ intl').
  - eexists. split; [done|]. cbn [also_notified on_manager manager notified disposer
                                  assign_intl assign_currentLocale _localeSubscriptions].
    rewrite JSSet_values_delete. split; [done|].
    apply times_notified_fresh. intros Hin.
    apply list_elem_of_filter in Hin as [Hne _]. by apply Hne.
  - exact Hintl.
  - cbn [on_manager manager disposer _localeSubscriptions].
    rewrite JSSet_values_delete. intros other Hin.
    apply list_elem_of_filter in Hin as [Hne Hin]. by apply Hquiet.
  - cbn [on_manager manager disposer _localeSubscriptions].
    unfold JSSet.delete. by rewrite length_fmap.
Qed.

(** X11.  [setLocale] never changes [defaultLocale] or the default rich
    elements, whatever the subscribers do while they are notified (subscribe,
    dispose, call [setLocale] again, throw) and however far the notification
    has got. *)
Theorem setLocale_keeps_defaults fuel L w :
  defaultLocale (manager (snd (setLocale createIntl body fuel L w)))
  = defaultLocale (manager w)
  /\ defaultRichTextElements (manager (snd (setLocale createIntl body fuel L w)))
     = defaultRichTextElements (manager w).
Proof.
  unfold setLocale.
  apply (setLocale_with_invariant createIntl
           (fun this => defaultLocale this = defaultLocale (manager w)
                        /\ defaultRichTextElements this = defaultRichTextElements (manager w)));
    [done| |done].
  intros locale w1 Hw1. unfold emitLocaleChange.
  by apply (emitLocaleChange_invariant createIntl body (fun _ => True)).
Qed.

(** X21.  When [createIntl] rejects the locale, [setLocale(L)] throws what
    [createIntl] threw, whatever the subscribers are and without calling any
    of them; [currentLocale] is [L] all the same while [intl] is the old
    one, so that a message getter is afterwards resolved for [L] and a
    compiled template formatted with the formatters of the previous
    locale. *)
Theorem setLocale_rejected_locale fuel L w (e : Thrown) f values :
  createIntl {| cfg_formats := None;
                cfg_defaultLocale := defaultLocale (manager w);
                cfg_locale := L |} = Throw e ->
  setLocale createIntl body fuel L w = (Some (Throw e), on_manager (assign_currentLocale L) w)
  /\ notified (snd (setLocale createIntl body fuel L w)) = notified w
  /\ currentLocale (manager (snd (setLocale createIntl body fuel L w))) = L
  /\ intl (manager (snd (setLocale createIntl body fuel L w))) = intl (manager w)
  /\ formatToParts ToString (manager (snd (setLocale createIntl body fuel L w)))
       (MFunction f) values
     = bindC (f L)
         (fun resolvedMessage =>
            match resolvedMessage with
            | RString s => Normal [VString s]
            | RTemplate t =>
              bindC (tpl_formatToParts t (formatters (intl (manager w)))
                       (formats (intl (manager w))) (resolvedValues (manager w) values))
                (fun parts => Normal (coalesce ToString parts))
            end).
Proof.
  intros Hintl. rewrite (setLocale_rejected _ _ _ _ _ _ Hintl). repeat split.
Qed.

End LocaleChanges.

(** ** Subscribers that call back into the manager *)

Section Reentrancy.

Context {Opaque Formatters Formats : Type}.
Context (createIntl : @IntlConfig Formats -> Completion (@IntlShape Formatters Formats)).
Context (body : Callback -> string -> list Action).

Implicit Types (w : @World Opaque Formatters Formats).
Implicit Types (locale L M : string) (fuel index : nat).

Lemma emitLocaleChange_at_callback fuel L w (before after : JSSet.t) (callback : Callback) :
  _localeSubscriptions (manager w) = before ++ Some callback :: after ->
  emitLocaleChange_from createIntl body (S fuel) L (length before) w
  = match run_body (setLocale createIntl body fuel)
            (body callback L) (record_call callback L w) with
    | (Some (Normal _), w') =>
      emitLocaleChange_from createIntl body fuel L (S (length before)) w'
    | r => r
    end.
Proof.
  intros Hsubs. rewrite emitLocaleChange_from_S, Hsubs.
  by rewrite list_lookup_middle.
Qed.

(** X12.  The loop runs over the live set: with a locale that [createIntl]
    accepts, a callback that a subscriber registers while it is being
    notified is itself notified before [setLocale] returns, after all the
    members there were (the other subscribers and the new callback return
    without calling back into the manager). *)
Theorem subscriber_added_during_notification_is_notified fuel L w
    (intl' : @IntlShape Formatters Formats)
    (before after : JSSet.t) (callback added : Callback) :
  createIntl {| cfg_formats := None;
                cfg_defaultLocale := defaultLocale (manager w);
                cfg_locale := L |} = Normal intl' ->
  _localeSubscriptions (manager w) = before ++ Some callback :: after ->
  body callback L = [CallOnLocaleChange added] ->
  added ∉ JSSet.values (_localeSubscriptions (manager w)) ->
  (forall other, other ∈ JSSet.values before ++ JSSet.values after ++ [added] ->
                 body other L = []) ->
  length (_localeSubscriptions (manager w)) + 2 <= fuel ->
  exists w',
    setLocale createIntl body fuel L w = (Some (Normal tt), w')
    /\ JSSet.values (_localeSubscriptions (manager w'))
       = JSSet.values (_localeSubscriptions (manager w)) ++ [added]
    /\ notified w'
       = notified w
         ++ notifications L (JSSet.values (_localeSubscriptions (manager w)) ++ [added]).
Proof.
  intros Hintl Hsubs Hbody Hfresh Hquiet Hfuel.
  assert (Hlen : length (_localeSubscriptions (manager w))
                 = length before + S (length after))
    by (rewrite Hsubs, length_app; simpl; lia).
  set (w1 := on_manager (assign_intl intl') (on_manager (assign_currentLocale L) w)).
  set (w2 := also_notified (notifications L (JSSet.values before)) w1).
  set (w3 := on_manager (onLocaleChange added) (record_call callback L w2)).
  assert (Hsubs3 : _localeSubscriptions (manager w3)
                   = (before ++ [Some callback]) ++ (after ++ [Some added]) ++ []).
  { cbn. rewrite Hsubs. unfold JSSet.add, JSSet.has.
    rewrite bool_decide_eq_false_2.
    - by rewrite app_nil_r, <- !app_assoc.
    - intros Hin. apply Hfresh. rewrite Hsubs. by apply JSSet_elem_of_values. }
  exists (also_notified (notifications L (JSSet.values (after ++ [Some added]))) w3).
  split; [|split].
  - rewrite (setLocale_accepted _ _ _ _ _ _ Hintl). unfold emitLocaleChange. fold w1.
    replace fuel with (length before
                       + S (length (after ++ [Some added])
                            + S (fuel - (length before + length after + 3))))
      by (rewrite length_app; simpl; lia).
    rewrite (emitLocaleChange_over_quiet createIntl body before [] (Some callback :: after)
               _ L w1); [|done|].
    2: { intros other Hin. apply Hquiet. apply elem_of_app. by left. }
    fold w2. cbn [length Nat.add].
    rewrite (emitLocaleChange_at_callback _ L w2 before after callback) by done.
    rewrite Hbody. cbn [run_body]. fold w3.
    replace (S (length before)) with (length (before ++ [Some callback]))
      by (rewrite length_app; simpl; lia).
    rewrite (emitLocaleChange_over_quiet createIntl body (after ++ [Some added])
               (before ++ [Some callback]) [] _ L w3); [|done|].
    2: { intros other Hin. apply Hquiet. rewrite JSSet_values_app in Hin.
         apply elem_of_app. by right. }
    apply emitLocaleChange_at_end.
    cbn [also_notified manager]. rewrite Hsubs3, !length_app. simpl. lia.
  - cbn [also_notified manager]. rewrite Hsubs3, Hsubs, app_nil_r.
    rewrite !JSSet_values_app. cbn. by rewrite <- !app_assoc.
  - cbn. rewrite Hsubs, !JSSet_values_app. unfold notifications. cbn.
    rewrite !fmap_app. cbn. by rewrite <- !app_assoc.
Qed.

(** X13.  A subscriber that answers the change to [L] by calling
    [setLocale(M)], both locales being accepted by [createIntl] and every
    other call returning without calling back into the manager: the inner
    call notifies every member of [M] and returns, then the outer loop goes
    on telling the remaining members the locale [L], which is no longer
    current when [setLocale(L)] returns. *)
Theorem setLocale_inside_a_subscriber fuel L M w
    (intl' intl'' : @IntlShape Formatters Formats)
    (before after : JSSet.t) (callback : Callback) :
  createIntl {| cfg_formats := None;
                cfg_defaultLocale := defaultLocale (manager w);
                cfg_locale := L |} = Normal intl' ->
  createIntl {| cfg_formats := None;
                cfg_defaultLocale := defaultLocale (manager w);
                cfg_locale := M |} = Normal intl'' ->
  _localeSubscriptions (manager w) = before ++ Some callback :: after ->
  body callback L = [CallSetLocale M] ->
  (forall other, other ∈ JSSet.values before ++ JSSet.values after -> body other L = []) ->
  (forall member, member ∈ JSSet.values (_localeSubscriptions (manager w)) ->
                  body member M = []) ->
  2 * length (_localeSubscriptions (manager w)) + 2 <= fuel ->
  exists w',
    setLocale createIntl body fuel L w = (Some (Normal tt), w')
    /\ currentLocale (manager w') = M
    /\ intl (manager w') = intl''
    /\ notified w'
       = notified w
         ++ notifications L (JSSet.values before) ++ [(callback, L)]
         ++ notifications M (JSSet.values (_localeSubscriptions (manager w)))
         ++ notifications L (JSSet.values after).
Proof.
  intros HL HM Hsubs Hbody HquietL HquietM Hfuel.
  set (subs := _localeSubscriptions (manager w)) in *.
  assert (Hlen : length subs = length before + S (length after))
    by (rewrite Hsubs, length_app; simpl; lia).
  set (w1 := on_manager (assign_intl intl') (on_manager (assign_currentLocale L) w)).
  set (w2 := record_call callback L
               (also_notified (notifications L (JSSet.values before)) w1)).
  set (w3 := also_notified (notifications M (JSSet.values subs))
               (on_manager (assign_intl intl'') (on_manager (assign_currentLocale M) w2))).
  exists (also_notified (notifications L (JSSet.values after)) w3).
  split; [|split; [done|split; [done|]]].
  - rewrite (setLocale_accepted _ _ _ _ _ _ HL). unfold emitLocaleChange. fold w1.
    replace fuel with (length before
                       + S (length subs + S (fuel - (length before + length subs + 2))))
      by lia.
    set (k := fuel - (length before + length subs + 2)).
    rewrite (emitLocaleChange_over_quiet createIntl body before [] (Some callback :: after)
               _ L w1); [|done|].
    2: { intros other Hin. apply HquietL. apply elem_of_app. by left. }
    cbn [length Nat.add].
    rewrite (emitLocaleChange_at_callback _ L _ before after callback) by done.
    fold w2. rewrite Hbody. cbn [run_body].
    rewrite (setLocale_accepted createIntl body _ M w2 intl'' HM).
    unfold emitLocaleChange.
    rewrite (emitLocaleChange_over_quiet createIntl body subs [] [] _ M
               (on_manager (assign_intl intl'') (on_manager (assign_currentLocale M) w2)));
      [|by rewrite app_nil_r|done].
    fold w3. rewrite emitLocaleChange_at_end by (cbn; fold subs; lia).
    replace (length subs + S k) with (length after + S (length before + S k)) by lia.
    replace (S (length before)) with (length (before ++ [Some callback]))
      by (rewrite length_app; simpl; lia).
    rewrite (emitLocaleChange_over_quiet createIntl body after
               (before ++ [Some callback]) [] _ L w3).
    + apply emitLocaleChange_at_end. cbn. fold subs. rewrite length_app. simpl. lia.
    + cbn. fold subs. by rewrite Hsubs, app_nil_r, <- app_assoc.
    + intros other Hin. apply HquietL. apply elem_of_app. by right.
  - cbn. by rewrite <- !app_assoc.
Qed.

End Reentrancy.


Lemma formatToParts_after_setLocale_witness :
  formatToParts Scenario.ToString
    (manager (snd (setLocale Scenario.createIntl Scenario.quiet 3 "fr"
                     Scenario.two_subscribers)))
    (MFunction (fun locale => Normal (RString ("Bonjour " +:+ locale)))) None
  = bindC (Normal (RString ("Bonjour " +:+ "fr")))
      (fun resolvedMessage =>
         match resolvedMessage with
         | RString s => Normal [VString s]
         | RTemplate t =>
           bindC (tpl_formatToParts t
                    (formatters {| formatters := "fr"; formats := false |})
                    (formats {| formatters := "fr"; formats := false |})
                    (resolvedValues (manager Scenario.two_subscribers) None))
             (fun parts => Normal (coalesce Scenario.ToString parts))
         end).
Proof.
  apply (formatToParts_after_setLocale Scenario.ToString Scenario.createIntl Scenario.quiet
           3 "fr" Scenario.two_subscribers {| formatters := "fr"; formats := false |}
           (fun locale => Normal (RString ("Bonjour " +:+ locale))) None).
  - reflexivity.
  - reflexivity.
  - simpl. lia.
Defined.

Lemma disposed_callback_is_not_notified_witness :
  exists w',
    setLocale Scenario.createIntl Scenario.quiet 4 "fr"
      (on_manager (disposer 2) Scenario.three_subscribers)
    = (Some (Normal tt), w')
    /\ notified w'
       = notified Scenario.three_subscribers
         ++ notifications "fr"
              (filter (fun other => other <> 2)
                 (JSSet.values (_localeSubscriptions (manager Scenario.three_subscribers))))
    /\ times_notified 2 "fr"
         (notifications "fr"
            (filter (fun other => other <> 2)
               (JSSet.values (_localeSubscriptions (manager Scenario.three_subscribers)))))
       = 0.
Proof.
  apply (disposed_callback_is_not_notified Scenario.createIntl Scenario.quiet
           4 "fr" Scenario.three_subscribers {| formatters := "fr"; formats := false |} 2).
  - reflexivity.
  - reflexivity.
  - simpl. lia.
Defined.

Lemma setLocale_rejected_locale_witness :
  setLocale Scenario.createIntl Scenario.quiet 3 "en_US" Scenario.two_subscribers
  = (Some (Throw RangeError_incorrect_locale),
     on_manager (assign_currentLocale "en_US") Scenario.two_subscribers)
  /\ notified (snd (setLocale Scenario.createIntl Scenario.quiet 3 "en_US"
                      Scenario.two_subscribers))
     = notified Scenario.two_subscribers
  /\ currentLocale
       (manager (snd (setLocale Scenario.createIntl Scenario.quiet 3 "en_US"
                        Scenario.two_subscribers))) = "en_US"
  /\ intl (manager (snd (setLocale Scenario.createIntl Scenario.quiet 3 "en_US"
                          Scenario.two_subscribers)))
     = intl (manager Scenario.two_subscribers)
  /\ formatToParts Scenario.ToString
       (manager (snd (setLocale Scenario.createIntl Scenario.quiet 3 "en_US"
                        Scenario.two_subscribers)))
       (MFunction (fun locale => Normal (RString locale))) None
     = bindC (Normal (RString "en_US"))
         (fun resolvedMessage =>
            match resolvedMessage with
            | RString s => Normal [VString s]
            | RTemplate t =>
              bindC (tpl_formatToParts t
                       (formatters (intl (manager Scenario.two_subscribers)))
                       (formats (intl (manager Scenario.two_subscribers)))
                       (resolvedValues (manager Scenario.two_subscribers) None))
                (fun parts => Normal (coalesce Scenario.ToString parts))
            end).
Proof.
  apply (setLocale_rejected_locale Scenario.ToString Scenario.createIntl Scenario.quiet
           3 "en_US" Scenario.two_subscribers RangeError_incorrect_locale
           (fun locale => Normal (RString locale)) None).
  reflexivity.
Defined.

Lemma subscriber_added_during_notification_is_notified_witness :
  exists w',
    setLocale Scenario.createIntl Scenario.first_subscribes_third 4 "fr"
      Scenario.two_subscribers
    = (Some (Normal tt), w')
    /\ JSSet.values (_localeSubscriptions (manager w'))
       = JSSet.values (_localeSubscriptions (manager Scenario.two_subscribers)) ++ [3]
    /\ notified w'
       = notified Scenario.two_subscribers
         ++ notifications "fr"
              (JSSet.values (_localeSubscriptions (manager Scenario.two_subscribers)) ++ [3]).
Proof.
  apply (subscriber_added_during_notification_is_notified Scenario.createIntl
           Scenario.first_subscribes_third 4 "fr" Scenario.two_subscribers
           {| formatters := "fr"; formats := false |} [] [Some 2] 1 3).
  - reflexivity.
  - reflexivity.
  - reflexivity.
  - intros Hin. apply list_elem_of_In in Hin. vm_compute in Hin.
    destruct Hin as [H|[H|[]]]; discriminate.
  - intros other Hin. apply list_elem_of_In in Hin. vm_compute in Hin.
    destruct Hin as [<-|[<-|[]]]; reflexivity.
  - simpl. lia.
Defined.

Lemma setLocale_inside_a_subscriber_witness :
  exists w',
    setLocale Scenario.createIntl Scenario.first_switches_to_de 6 "fr"
      Scenario.two_subscribers
    = (Some (Normal tt), w')
    /\ currentLocale (manager w') = "de"
    /\ intl (manager w') = {| formatters := "de"; formats := false |}
    /\ notified w'
       = notified Scenario.two_subscribers
         ++ notifications "fr" (JSSet.values []) ++ [(1, "fr")]
         ++ notifications "de"
              (JSSet.values (_localeSubscriptions (manager Scenario.two_subscribers)))
         ++ notifications "fr" (JSSet.values [Some 2]).
Proof.
  apply (setLocale_inside_a_subscriber Scenario.createIntl Scenario.first_switches_to_de
           6 "fr" "de" Scenario.two_subscribers
           {| formatters := "fr"; formats := false |}
           {| formatters := "de"; formats := false |} [] [Some 2] 1).
  - reflexivity.
  - reflexivity.
  - reflexivity.
  - reflexivity.
  - intros other Hin. apply list_elem_of_In in Hin. vm_compute in Hin.
    destruct Hin as [<-|[]]. reflexivity.
  - intros member Hin. apply list_elem_of_In in Hin. vm_compute in Hin.
    destruct Hin as [<-|[<-|[]]]; reflexivity.
  - simpl. lia.
Defined.

(** ** Bindings *)

Section EmptyBindings.

Context {Opaque : Type} (ToString : Opaque -> string).
Context {Formatters Formats : Type}.

Implicit Types (this : @IntlManager Opaque Formatters Formats).
Implicit Types (message : @Message Opaque Formatters Formats).

(** X14.  [formatToParts] does not tell an empty bindings object from an
    omitted one: either way the template gets the default rich elements. *)
Theorem formatToParts_empty_bindings this message :
  formatToParts ToString this message (Some ∅) = formatToParts ToString this message None.
Proof.
  assert (H : resolvedValues this (Some ∅) = resolvedValues this None)
    by (unfold resolvedValues; apply (left_id_L ∅ (∪))).
  destruct message as [s|f|t]; [done| |]; unfold formatToParts; by rewrite H.
Qed.

End EmptyBindings.

(** ** More on the watcher *)

Section Compilation.

Context {Env : Type}.
Context (isMessageDefinitionsFile : string -> bool).
Context (processDefinitionsFile : string -> Env -> Completion unit * Env).
Context (precompile :
  string -> string -> string -> IntlCompiledMessageFormat -> Env -> Completion unit * Env).
Context (cwd : string).

Abbreviation processFile' :=
  (processFile isMessageDefinitionsFile processDefinitionsFile precompile cwd).
Abbreviation compileIntlMessageFiles' :=
  (compileIntlMessageFiles isMessageDefinitionsFile processDefinitionsFile precompile cwd).

Implicit Types (h : @Host Env) (filePath : string) (found : list string).

Ltac unfold_statements :=
  unfold seq, try_catch, database, debug, console_error, write_log, ret; simpl.

Lemma processFile_skips filePath h :
  isMessageDefinitionsFile filePath = false -> processFile' filePath h = (Normal tt, h).
Proof. intros Hdef. unfold processFile. by rewrite Hdef. Qed.

(** X15.  Paths that [isMessageDefinitionsFile] rejects never reach the
    database, whatever handed them over: a scan that finds only such paths
    leaves database and log as they were. *)
Theorem scan_skips_other_files found h :
  forallb (fun filePath => negb (isMessageDefinitionsFile filePath)) found = true ->
  for_of found processFile' h = (Normal tt, h).
Proof.
  revert h. induction found as [|filePath found IH]; intros h Hfound; [done|].
  apply andb_true_iff in Hfound as [Hdef Hfound]. apply negb_true_iff in Hdef.
  cbn [for_of]. unfold seq. rewrite processFile_skips by done. by apply IH.
Qed.

(** X16.  When both database calls succeed, [processFile] logs the one line
    that names the file and leaves the database as [processDefinitionsFile]
    followed by [precompile] (for locale [en-US], format [Json] and the
    computed output path) left it. *)
Theorem processFile_compiles filePath h (env1 env2 : Env) :
  isMessageDefinitionsFile filePath = true ->
  processDefinitionsFile filePath (env h) = (Normal tt, env1) ->
  precompile filePath "en-US" (outputPath cwd filePath) Json env1 = (Normal tt, env2) ->
  processFile' filePath h
  = (Normal tt,
     {| env := env2; log := log h ++ [Debug ("Processing file: " +:+ filePath)] |}).
Proof.
  intros Hdef H1 H2. unfold processFile. rewrite Hdef. unfold_statements.
  rewrite H1. simpl. by rewrite H2.
Qed.

(** What [processFile] does to the database does not depend on the log. *)
Lemma processFile_env filePath h h' :
  env h = env h' ->
  env (snd (processFile' filePath h)) = env (snd (processFile' filePath h')).
Proof.
  intros Henv. unfold processFile.
  destruct (isMessageDefinitionsFile filePath); [|done]. unfold_statements.
  rewrite Henv.
  destruct (processDefinitionsFile filePath (env h')) as [[[]|e] env1]; [|done].
  simpl.
  by destruct (precompile filePath "en-US" (outputPath cwd filePath) Json env1)
    as [[[]|e] env2].
Qed.

Lemma scan_env found :
  forall h h',
    env h = env h' ->
    env (fold_left (fun h0 filePath => snd (processFile' filePath h0)) found h)
    = env (fold_left (fun h0 filePath => snd (processFile' filePath h0)) found h').
Proof.
  induction found as [|filePath found IH]; intros h h' Henv; [done|].
  cbn [fold_left]. apply IH. by apply processFile_env.
Qed.

Lemma events_env (events : list (string * string)) :
  forall h h',
    env h = env h' ->
    env (snd (for_of events
                (fun '(event, filePath) =>
                   seq (debug ("Got event " +:+ event +:+ " for " +:+ filePath))
                     (fun _ => processFile' filePath)) h))
    = env (fold_left (fun h0 filePath => snd (processFile' filePath h0)) events.*2 h').
Proof.
  induction events as [|[event filePath] events IH]; intros h h' Henv; [done|].
  cbn [for_of fmap list_fmap fold_left snd]. unfold seq at 1.
  set (h1 := {| env := env h;
                log := log h ++ [Debug ("Got event " +:+ event +:+ " for " +:+ filePath)] |}).
  assert (Hstep : seq (debug ("Got event " +:+ event +:+ " for " +:+ filePath))
                    (fun _ => processFile' filePath) h
                  = processFile' filePath h1) by done.
  rewrite Hstep.
  pose proof (processFile_returns isMessageDefinitionsFile processDefinitionsFile
                precompile cwd filePath h1) as Hret.
  destruct (processFile' filePath h1) as [c h2] eqn:Hrun. simpl in Hret. subst c.
  apply IH. change h2 with (snd (Normal tt, h2)). rewrite <- Hrun.
  by apply processFile_env.
Qed.

(** X17.  As far as the database is concerned, [compileIntlMessageFiles] is
    [processFile] applied to the paths found by the scan, in the order they
    were found, and then, when [watch] is set, to the path of each event in
    the order of arrival; with [watch] unset the events are ignored. *)
Theorem compileIntlMessageFiles_processes_in_order found watch events h :
  env (snd (compileIntlMessageFiles isMessageDefinitionsFile processDefinitionsFile
              precompile cwd found watch events h))
  = env (fold_left
           (fun h0 filePath =>
              snd (processFile isMessageDefinitionsFile processDefinitionsFile
                     precompile cwd filePath h0))
           (found ++ if watch then events.*2 else []) h).
Proof.
  unfold compileIntlMessageFiles, seq at 1 2, debug at 1, write_log. simpl.
  rewrite for_of_all_iterations
    by apply (processFile_returns isMessageDefinitionsFile processDefinitionsFile
                precompile cwd).
  unfold seq at 1, debug at 1, write_log. simpl.
  rewrite fold_left_app.
  destruct watch.
  - unfold seq at 1, debug at 1, write_log. simpl.
    apply events_env. simpl. by apply scan_env.
  - simpl. by apply scan_env.
Qed.

(** The log only grows. *)
Lemma processFile_log filePath h :
  exists more, log (snd (processFile' filePath h)) = log h ++ more.
Proof.
  unfold processFile. destruct (isMessageDefinitionsFile filePath);
    [|by exists []; rewrite app_nil_r].
  unfold_statements.
  destruct (processDefinitionsFile filePath (env h)) as [[[]|e] env1]; simpl.
  - destruct (precompile filePath "en-US" (outputPath cwd filePath) Json env1)
      as [[[]|e] env2]; simpl; eexists; by rewrite <- ?app_assoc.
  - eexists. by rewrite <- !app_assoc.
Qed.

Lemma scan_log found :
  forall h,
    exists more,
      log (fold_left (fun h0 filePath => snd (processFile' filePath h0)) found h)
      = log h ++ more.
Proof.
  induction found as [|filePath found IH]; intros h; [by exists []; rewrite app_nil_r|].
  cbn [fold_left]. destruct (IH (snd (processFile' filePath h))) as [more Hmore].
  destruct (processFile_log filePath h) as [more' Hmore'].
  exists (more' ++ more). by rewrite Hmore, Hmore', app_assoc.
Qed.

Lemma processFile_announces filePath h :
  isMessageDefinitionsFile filePath = true ->
  Debug ("Processing file: " +:+ filePath) ∈ log (snd (processFile' filePath h)).
Proof.
  intros Hdef. unfold processFile. rewrite Hdef. unfold_statements.
  destruct (processDefinitionsFile filePath (env h)) as [[[]|e] env1]; simpl.
  - destruct (precompile filePath "en-US" (outputPath cwd filePath) Json env1)
      as [[[]|e] env2]; simpl; set_solver.
  - set_solver.
Qed.

Lemma scan_announces found filePath :
  filePath ∈ found -> isMessageDefinitionsFile filePath = true ->
  forall h,
    Debug ("Processing file: " +:+ filePath)
    ∈ log (fold_left (fun h0 p => snd (processFile' p h0)) found h).
Proof.
  intros Hin Hdef. induction found as [|p found IH]; intros h; [by apply elem_of_nil in Hin|].
  cbn [fold_left]. apply elem_of_cons in Hin as [->|Hin]; [|by apply IH].
  destruct (scan_log found (snd (processFile' p h))) as [more ->].
  apply elem_of_app. left. by apply processFile_announces.
Qed.

(** X18.  Every definition file the scan finds is processed, wherever it
    stands among the paths found and whatever happens to the files around it:
    the line that names it is in the log when the scan is over. *)
Theorem scan_processes_every_definition_file found filePath h :
  filePath ∈ found ->
  isMessageDefinitionsFile filePath = true ->
  fst (for_of found processFile' h) = Normal tt
  /\ Debug ("Processing file: " +:+ filePath) ∈ log (snd (for_of found processFile' h)).
Proof.
  intros Hin Hdef.
  rewrite for_of_all_iterations
    by apply (processFile_returns isMessageDefinitionsFile processDefinitionsFile
                precompile cwd).
  split; [done|]. by apply scan_announces.
Qed.

End Compilation.

Lemma scan_skips_other_files_witness :
  for_of ["/app/notes.txt"; "/app/a.compiled.messages.jsona"]
    (processFile Scenario.isMessageDefinitionsFile Scenario.processDefinitionsFile
       Scenario.precompile "/app")
    Scenario.empty_host
  = (Normal tt, Scenario.empty_host).
Proof. apply scan_skips_other_files. reflexivity. Defined.

Lemma processFile_compiles_witness :
  processFile Scenario.isMessageDefinitionsFile Scenario.processDefinitionsFile
    Scenario.precompile "/app" "/app/x/a.messages.js" Scenario.empty_host
  = (Normal tt,
     {| env := ["/app/x/a.compiled.messages.jsona"];
        log := log Scenario.empty_host ++ [Debug ("Processing file: " +:+ "/app/x/a.messages.js")] |}).
Proof.
  apply (processFile_compiles Scenario.isMessageDefinitionsFile
           Scenario.processDefinitionsFile Scenario.precompile "/app"
           "/app/x/a.messages.js" Scenario.empty_host [] ["/app/x/a.compiled.messages.jsona"]);
    reflexivity.
Defined.

Lemma scan_processes_every_definition_file_witness :
  fst (for_of ["/app/bad.messages.js"; "/app/x/a.messages.js"]
         (processFile Scenario.isMessageDefinitionsFile Scenario.processDefinitionsFile
            Scenario.precompile "/app")
         Scenario.empty_host)
  = Normal tt
  /\ Debug ("Processing file: " +:+ "/app/x/a.messages.js")
     ∈ log (snd (for_of ["/app/bad.messages.js"; "/app/x/a.messages.js"]
                   (processFile Scenario.isMessageDefinitionsFile
                      Scenario.processDefinitionsFile Scenario.precompile "/app")
                   Scenario.empty_host)).
Proof.
  apply scan_processes_every_definition_file.
  - apply list_elem_of_In. simpl. tauto.
  - reflexivity.
Defined.

(** ** More on output paths *)

(** X20.  [fileBasename] removes the definition suffix that ends the path and
    nothing else: what stands before it is kept, even when it contains the
    suffix itself, and putting the suffix back gives the path again. *)
Theorem fileBasename_strips_the_final_suffix (base : string) :
  fileBasename (base +:+ definition_suffix) = base
  /\ fileBasename ((base +:+ definition_suffix) +:+ definition_suffix)
     = base +:+ definition_suffix
  /\ fileBasename (base +:+ definition_suffix) +:+ definition_suffix
     = base +:+ definition_suffix.
Proof.
  rewrite !fileBasename_of_definition_file. done.
Qed.
